(** * threads.c: the bounded thread-safe queue, its shutdown protocol,
      worker identification, the signal handler and the worker statistics.

    The C functions of [threads.c] are embedded as Rocq functions.  Every
    access to the fields of [ThreadSafeQueue] happens with [queue->lock]
    held, so the code between two points at which a call takes or gives up
    the lock is one atomic transition of the queue; [pthread_cond_wait] is
    the only place where a call is suspended. *)

From Stdlib Require Import ZArith QArith Qminmax Lia String.
From stdpp Require Import base list.

Local Open Scope Z_scope.

(** ** C integers and pointers *)

Definition INT_MAX : Z := 2147483647.
Definition LONG_MAX : Z := 9223372036854775807.

(** A value of type [int] after an arithmetic operation (two's complement). *)
Definition int_wrap (z : Z) : Z := (z + 2 ^ 31) mod 2 ^ 32 - 2 ^ 31.
Definition long_wrap (z : Z) : Z := (z + 2 ^ 63) mod 2 ^ 64 - 2 ^ 63.

(** [void*]: an address; [NULL] is address 0. *)
Definition ptr : Type := Z.
Definition NULL : ptr := 0.

(** [a % b] on [int]: truncated remainder, undefined for [b == 0]. *)
Definition int_rem (a b : Z) : option Z :=
  if b =? 0 then None else Some (int_wrap (Z.rem a b)).

(** [a[i]] and [a[i] = v] on a heap block of [length a] cells; an access
    outside the block is undefined behaviour ([None]). *)
Definition array_load (a : list ptr) (i : Z) : option ptr :=
  if 0 <=? i then a !! Z.to_nat i else None.

Definition array_store (a : list ptr) (i : Z) (v : ptr) : option (list ptr) :=
  if (0 <=? i) && (i <? Z.of_nat (length a))
  then Some (<[Z.to_nat i := v]> a) else None.

(** ** The queue structure *)

Record ThreadSafeQueue : Type := mkQueue {
  items : list ptr;
  head : Z;
  tail : Z;
  count : Z;
  capacity : Z
}.

(** What [queue_create] gets from its environment: the two [malloc]s (the
    second one returns a block whose cells hold indeterminate values) and
    the three initialisers. *)
Record CreateEnv : Type := {
  malloc_queue : bool;
  malloc_items : option (list ptr);
  mutex_init : bool;
  not_empty_init : bool;
  not_full_init : bool
}.

Definition queue_create (env : CreateEnv) (cap : Z) : option ThreadSafeQueue :=
  if negb (malloc_queue env) then None else
  match malloc_items env with
  | None => None
  | Some blk =>
      if negb (mutex_init env) then None
      else if negb (not_empty_init env) then None
      else if negb (not_full_init env) then None
      else Some {| items := blk; head := 0; tail := 0; count := 0;
                   capacity := cap |}
  end.

(** An environment in which every allocation succeeds; [blk] is what the
    fresh item block happens to contain. *)
Definition env_ok (blk : list ptr) : CreateEnv :=
  {| malloc_queue := true; malloc_items := Some blk; mutex_init := true;
     not_empty_init := true; not_full_init := true |}.

Definition queue_is_empty (q : ThreadSafeQueue) : bool := count q =? 0.
Definition queue_is_full (q : ThreadSafeQueue) : bool := count q =? capacity q.

(** ** One atomic section of a queue call *)

Inductive cond : Type := not_empty | not_full.

(** How a section that runs with the lock held ends. *)
Inductive outcome (R : Type) : Type :=
| Wait (c : cond)
    (** [pthread_cond_wait(c, &queue->lock)]: the lock is released with the
        queue as it was and the call is suspended *)
| Return (r : R) (q : ThreadSafeQueue) (signalled : option cond)
    (** the lock is released and the call returns [r] *)
| Undefined.
    (** undefined behaviour *)
Arguments Wait {R} c.
Arguments Return {R} r q signalled.
Arguments Undefined {R}.

(** The value of [shutdown_requested] as a C condition. *)
Definition is_set (shutdown_requested : Z) : bool := negb (shutdown_requested =? 0).

(** Lines 165-173. *)
Definition enqueue_insert (q : ThreadSafeQueue) (item : ptr) : outcome Z :=
  match array_store (items q) (tail q) item with
  | None => Undefined
  | Some a =>
      match int_rem (int_wrap (tail q + 1)) (capacity q) with
      | None => Undefined
      | Some t =>
          Return 0 {| items := a; head := head q; tail := t;
                      count := int_wrap (count q + 1);
                      capacity := capacity q |} (Some not_empty)
      end
  end.

(** [queue_enqueue] from [pthread_mutex_lock] on: the loop condition is
    tested first, the flag is not read. *)
Definition enqueue_entry (q : ThreadSafeQueue) (item : ptr) : outcome Z :=
  if queue_is_full q then Wait not_full else enqueue_insert q item.

(** [queue_enqueue] from the return of [pthread_cond_wait] on: the flag is
    read first, then the loop condition is tested again. *)
Definition enqueue_woken (shutdown_requested : Z) (q : ThreadSafeQueue)
    (item : ptr) : outcome Z :=
  if is_set shutdown_requested then Return (-1) q None
  else if queue_is_full q then Wait not_full
  else enqueue_insert q item.

(** Lines 191-200. *)
Definition dequeue_remove (q : ThreadSafeQueue) : outcome ptr :=
  match array_load (items q) (head q) with
  | None => Undefined
  | Some item =>
      match array_store (items q) (head q) NULL with
      | None => Undefined
      | Some a =>
          match int_rem (int_wrap (head q + 1)) (capacity q) with
          | None => Undefined
          | Some h =>
              Return item {| items := a; head := h; tail := tail q;
                             count := int_wrap (count q - 1);
                             capacity := capacity q |} (Some not_full)
          end
      end
  end.

(** [queue_dequeue] from the head of its loop on, which is where the call
    is both after [pthread_mutex_lock] and after [pthread_cond_wait]. *)
Definition dequeue_loop (shutdown_requested : Z) (q : ThreadSafeQueue)
    : outcome ptr :=
  if queue_is_empty q then
    if is_set shutdown_requested then Return NULL q None
    else Wait not_empty
  else dequeue_remove q.

(** ** A whole call, seen by its caller

    The environment of a call is the list of values that the call reads
    from [shutdown_requested], one per read; a wake-up of a suspended call
    is the next element.  No other thread touches the queue meanwhile. *)

Inductive call_result (R : Type) : Type :=
| Blocked
| Done (r : R) (q : ThreadSafeQueue)
| Crashed.
Arguments Blocked {R}.
Arguments Done {R} r q.
Arguments Crashed {R}.

Fixpoint enqueue_resume (q : ThreadSafeQueue) (item : ptr) (wakeups : list Z)
    : call_result Z :=
  match wakeups with
  | [] => Blocked
  | flag :: rest =>
      match enqueue_woken flag q item with
      | Wait _ => enqueue_resume q item rest
      | Return r q' _ => Done r q'
      | Undefined => Crashed
      end
  end.

Definition queue_enqueue (q : ThreadSafeQueue) (item : ptr) (wakeups : list Z)
    : call_result Z :=
  match enqueue_entry q item with
  | Wait _ => enqueue_resume q item wakeups
  | Return r q' _ => Done r q'
  | Undefined => Crashed
  end.

(** [flags]: the values that the reads of [shutdown_requested] yield, in
    order.  The flag is read only at a loop head that finds the queue
    empty: the first one, and then one after every wake-up.  A call that
    finds an item returns it without reading the flag. *)
Fixpoint queue_dequeue (q : ThreadSafeQueue) (flags : list Z) : call_result ptr :=
  match flags with
  | [] =>
      if queue_is_empty q then Blocked
      else
        match dequeue_remove q with
        | Wait _ => Blocked
        | Return r q' _ => Done r q'
        | Undefined => Crashed
        end
  | flag :: rest =>
      match dequeue_loop flag q with
      | Wait _ => queue_dequeue q rest
      | Return r q' _ => Done r q'
      | Undefined => Crashed
      end
  end.

(** ** Runs of one queue under arbitrary interleavings

    Whatever the threads are, the queue sees a sequence of atomic sections,
    each started by some call with some value of the flag. *)

Inductive section : Type :=
| EnqEntry (item : ptr)
| EnqWoken (flag : Z) (item : ptr)
| DeqLoop (flag : Z).

(** A completed operation: [queue_enqueue] returned 0 for [item], or
    [queue_dequeue] returned [item] through line 200. *)
Inductive event : Type :=
| Enqueued (item : ptr)
| Dequeued (item : ptr).

Definition enqueue_events (q : ThreadSafeQueue) (item : ptr) (o : outcome Z)
    : option (ThreadSafeQueue * list event) :=
  match o with
  | Wait _ => Some (q, [])
  | Return r q' _ => Some (q', if r =? 0 then [Enqueued item] else [])
  | Undefined => None
  end.

(** The return at line 200 is the one that follows the signal on
    [not_full]; the return at line 186 signals nothing. *)
Definition dequeue_events (q : ThreadSafeQueue) (o : outcome ptr)
    : option (ThreadSafeQueue * list event) :=
  match o with
  | Wait _ => Some (q, [])
  | Return r q' (Some _) => Some (q', [Dequeued r])
  | Return r q' None => Some (q', [])
  | Undefined => None
  end.

Definition run_section (q : ThreadSafeQueue) (s : section)
    : option (ThreadSafeQueue * list event) :=
  match s with
  | EnqEntry item => enqueue_events q item (enqueue_entry q item)
  | EnqWoken flag item => enqueue_events q item (enqueue_woken flag q item)
  | DeqLoop flag => dequeue_events q (dequeue_loop flag q)
  end.

Fixpoint run (q : ThreadSafeQueue) (ss : list section)
    : option (ThreadSafeQueue * list event) :=
  match ss with
  | [] => Some (q, [])
  | s :: rest =>
      match run_section q s with
      | None => None
      | Some (q1, e1) =>
          match run q1 rest with
          | None => None
          | Some (q2, e2) => Some (q2, e1 ++ e2)
          end
      end
  end.

Fixpoint enqueued (evs : list event) : list ptr :=
  match evs with
  | [] => []
  | Enqueued x :: rest => x :: enqueued rest
  | Dequeued _ :: rest => enqueued rest
  end.

Fixpoint dequeued (evs : list event) : list ptr :=
  match evs with
  | [] => []
  | Enqueued _ :: rest => dequeued rest
  | Dequeued x :: rest => x :: dequeued rest
  end.

(** The contents of the [count] slots from [head] on, modulo [capacity]. *)
Definition live_slots (q : ThreadSafeQueue) : list ptr :=
  (λ i : nat, default NULL
     (items q !! Z.to_nat ((head q + Z.of_nat i) mod capacity q)))
  <$> seq 0 (Z.to_nat (count q)).

(** The structural invariant of the ring buffer. *)
Record queue_wf (q : ThreadSafeQueue) : Prop := {
  wf_capacity : 0 < capacity q <= INT_MAX;
  wf_items : length (items q) = Z.to_nat (capacity q);
  wf_head : 0 <= head q < capacity q;
  wf_tail : 0 <= tail q < capacity q;
  wf_count : 0 <= count q <= capacity q;
  wf_ring : tail q = (head q + count q) mod capacity q
}.

(** [holds q l]: the live slots of [q] contain [l], oldest first. *)
Definition holds (q : ThreadSafeQueue) (l : list ptr) : Prop :=
  count q = Z.of_nat (length l) ∧
  ∀ (i : nat) x, l !! i = Some x →
    items q !! Z.to_nat ((head q + Z.of_nat i) mod capacity q) = Some x.

(** The queue after lines 165-167 and after lines 191-194, in unbounded
    arithmetic. *)
Definition after_enqueue (q : ThreadSafeQueue) (item : ptr) : ThreadSafeQueue :=
  {| items := <[Z.to_nat (tail q) := item]> (items q);
     head := head q;
     tail := (tail q + 1) mod capacity q;
     count := count q + 1;
     capacity := capacity q |}.

Definition after_dequeue (q : ThreadSafeQueue) : ThreadSafeQueue :=
  {| items := <[Z.to_nat (head q) := NULL]> (items q);
     head := (head q + 1) mod capacity q;
     tail := tail q;
     count := count q - 1;
     capacity := capacity q |}.

(** A first-in first-out list as reference: the events that are possible
    from contents [l], and the contents they lead to. *)
Fixpoint fifo_replay (l : list ptr) (evs : list event) : option (list ptr) :=
  match evs with
  | [] => Some l
  | Enqueued x :: rest => fifo_replay (l ++ [x]) rest
  | Dequeued x :: rest =>
      match l with
      | y :: l' => if decide (x = y) then fifo_replay l' rest else None
      | [] => None
      end
  end.

(** The task a queued pointer refers to. *)
Record timeval : Type := { tv_sec : Z; tv_usec : Z }.

Record Task : Type := {
  task_id : Z;
  priority : Z;
  start_time : timeval;
  end_time : timeval
}.

(** ** Threads calling the queue, and the shutdown flag

    The scheduler picks a thread, which runs its next atomic section; a
    thread suspended in [pthread_cond_wait] runs again only once a
    [pthread_cond_signal] on its condition has picked it ([threads.c]
    calls no [pthread_cond_broadcast], and POSIX promises no wake-up
    without a signal). *)

Inductive thread : Type :=
| Enqueue_call (item : ptr)
| Enqueue_wait (item : ptr) (signalled : bool)
| Enqueue_ret (r : Z)
| Dequeue_call
| Dequeue_wait (signalled : bool)
| Dequeue_ret (r : ptr)
| Faulted.

Record system : Type := {
  task_queue : ThreadSafeQueue;
  shutdown_requested : Z;
  threads : list thread;
  stdout : list string
}.

Definition waits_on (c : cond) (t : thread) : bool :=
  match c, t with
  | not_full, Enqueue_wait _ false => true
  | not_empty, Dequeue_wait false => true
  | _, _ => false
  end.

Definition wake (t : thread) : thread :=
  match t with
  | Enqueue_wait item _ => Enqueue_wait item true
  | Dequeue_wait _ => Dequeue_wait true
  | _ => t
  end.

Fixpoint wake_first (c : cond) (ts : list thread) : list thread :=
  match ts with
  | [] => []
  | t :: rest => if waits_on c t then wake t :: rest else t :: wake_first c rest
  end.

(** [pthread_cond_signal(c)]: one thread waiting on [c] is woken, the one
    the scheduler names if it is waiting, some other one if not; without a
    waiter nothing happens. *)
Definition cond_signal (c : cond) (chosen : nat) (ts : list thread) : list thread :=
  match ts !! chosen with
  | Some t => if waits_on c t then <[chosen := wake t]> ts else wake_first c ts
  | None => wake_first c ts
  end.

Definition signal_opt (sig : option cond) (chosen : nat) (ts : list thread)
    : list thread :=
  match sig with
  | Some c => cond_signal c chosen ts
  | None => ts
  end.

(** The section that thread [t] runs next, if it can run. *)
Definition next_section (flag : Z) (q : ThreadSafeQueue) (t : thread)
    : option (thread * ThreadSafeQueue * option cond) :=
  match t with
  | Enqueue_call item =>
      Some match enqueue_entry q item with
           | Wait _ => (Enqueue_wait item false, q, None)
           | Return r q' sig => (Enqueue_ret r, q', sig)
           | Undefined => (Faulted, q, None)
           end
  | Enqueue_wait item true =>
      Some match enqueue_woken flag q item with
           | Wait _ => (Enqueue_wait item false, q, None)
           | Return r q' sig => (Enqueue_ret r, q', sig)
           | Undefined => (Faulted, q, None)
           end
  | Dequeue_call | Dequeue_wait true =>
      Some match dequeue_loop flag q with
           | Wait _ => (Dequeue_wait false, q, None)
           | Return r q' sig => (Dequeue_ret r, q', sig)
           | Undefined => (Faulted, q, None)
           end
  | _ => None
  end.

(** POSIX signal numbers (Linux values of the [<signal.h>] macros). *)
Definition SIGINT : Z := 2.
Definition SIGTERM : Z := 15.

(** What [signal_handler] does, in order. *)
Inductive handler_action : Type :=
| call_printf (text : string)
| store_shutdown_requested (v : Z).

Definition newline : string := String (Ascii.ascii_of_nat 10) EmptyString.

Definition signal_handler_actions (sig : Z) : list handler_action :=
  if (sig =? SIGINT) || (sig =? SIGTERM) then
    [call_printf (newline ++ "Shutdown signal received. Cleaning up..." ++ newline)%string;
     store_shutdown_requested 1]
  else [].

Definition perform (s : system) (a : handler_action) : system :=
  match a with
  | call_printf text =>
      {| task_queue := task_queue s; shutdown_requested := shutdown_requested s;
         threads := threads s; stdout := stdout s ++ [text] |}
  | store_shutdown_requested v =>
      {| task_queue := task_queue s; shutdown_requested := v;
         threads := threads s; stdout := stdout s |}
  end.

Definition signal_handler (sig : Z) (s : system) : system :=
  foldl perform s (signal_handler_actions sig).

(** The functions that POSIX allows a signal handler to call
    (signal-safety(7)) do not include [printf]; a store to a
    [volatile sig_atomic_t] object is allowed. *)
Definition async_signal_safe (a : handler_action) : bool :=
  match a with
  | call_printf _ => false
  | store_shutdown_requested _ => true
  end.

(** A scheduling step. *)
Inductive action : Type :=
| Run (tid : nat) (chosen : nat)
    (** thread [tid] runs its next section; should it signal, [chosen] is
        the waiter the scheduler prefers *)
| Deliver (sig : Z)
    (** the process receives signal [sig] *)
| Main_shutdown.
    (** [main] assigns 1 to the flag (lines 615 and 626) *)

Definition step (s : system) (a : action) : system :=
  match a with
  | Run tid chosen =>
      match threads s !! tid with
      | None => s
      | Some t =>
          match next_section (shutdown_requested s) (task_queue s) t with
          | None => s
          | Some (t', q', sig) =>
              {| task_queue := q';
                 shutdown_requested := shutdown_requested s;
                 threads := signal_opt sig chosen (<[tid := t']> (threads s));
                 stdout := stdout s |}
          end
      end
  | Deliver sig => signal_handler sig s
  | Main_shutdown =>
      {| task_queue := task_queue s; shutdown_requested := 1;
         threads := threads s; stdout := stdout s |}
  end.

Definition exec (s : system) (schedule : list action) : system :=
  foldl step s schedule.

(** A thread that only a signal on its condition can make runnable, or
    that has returned. *)
Definition parked (t : thread) : bool :=
  match t with
  | Enqueue_wait _ false | Dequeue_wait false => true
  | Enqueue_ret _ | Dequeue_ret _ | Faulted => true
  | _ => false
  end.

(** ** Two shutdown scenarios *)

(** A worker calls [queue_dequeue] on the empty queue while the flag is
    clear. *)
Definition idle_worker : system :=
  {| task_queue := mkQueue [0] 0 0 0 1; shutdown_requested := 0;
     threads := [Dequeue_call]; stdout := [] |}.

(** A producer calls [queue_enqueue] on a full queue after the flag has
    been set. *)
Definition late_producer : system :=
  {| task_queue := mkQueue [21] 0 0 1 1; shutdown_requested := 1;
     threads := [Enqueue_call 22]; stdout := [] |}.

(** ** Worker identification (lines 249-265) *)

Definition pthread_t : Type := Z.
Definition MAX_THREADS : nat := 32.

Inductive worker_event : Type :=
| lock_stats
| unlock_stats
| read_worker_threads (i : Z).

Inductive lookup_result : Type :=
| Found (thread_id : Z)
| Not_found
    (** [thread_id == -1]: the worker prints an error and returns *)
| Out_of_bounds.
    (** the scan read past the end of [worker_threads] *)

(** The [for] loop from index [i] on, with [n] iterations left. *)
Fixpoint scan_worker_threads (worker_threads : list pthread_t) (self : pthread_t)
    (i : Z) (n : nat) : list worker_event * lookup_result :=
  match n with
  | O => ([], Not_found)
  | S n' =>
      match array_load worker_threads i with
      | None => ([read_worker_threads i], Out_of_bounds)
      | Some h =>
          if h =? self then ([read_worker_threads i], Found i)
          else
            let '(tr, r) := scan_worker_threads worker_threads self (i + 1) n' in
            (read_worker_threads i :: tr, r)
      end
  end.

(** [worker_threads] is the table reached through the argument [&ctx],
    the same for every worker; [self] is [pthread_self()]. *)
Definition worker_identify (worker_threads : list pthread_t) (self : pthread_t)
    : list worker_event * lookup_result :=
  let '(tr, r) := scan_worker_threads worker_threads self 0 MAX_THREADS in
  (lock_stats :: tr ++ [unlock_stats], r).

(** ** Worker statistics (lines 287-298 and 480-483)

    A [double] is taken as the rational it denotes: rounding, infinities
    and NaN are left out. *)

Record WorkerStats : Type := {
  thread_id : Z;
  tasks_completed : Z;
  tasks_failed : Z;
  total_processing_time : Q;
  max_processing_time : Q;
  min_processing_time : Q
}.

(** [x < y] on [double]. *)
Definition Qlt_bool (x y : Q) : bool := negb (Qle_bool y x).

(** A slot after [calloc] and the initialisation loop. *)
Definition initial_stats (i : Z) : WorkerStats :=
  {| thread_id := i; tasks_completed := 0; tasks_failed := 0;
     total_processing_time := 0; max_processing_time := 0;
     min_processing_time := 1000 |}.

Definition update_stats (stats : WorkerStats) (processing_time : Q) : WorkerStats :=
  {| thread_id := thread_id stats;
     tasks_completed := long_wrap (tasks_completed stats + 1);
     tasks_failed := tasks_failed stats;
     total_processing_time := total_processing_time stats + processing_time;
     max_processing_time :=
       if Qlt_bool (max_processing_time stats) processing_time
       then processing_time else max_processing_time stats;
     min_processing_time :=
       if Qeq_bool (min_processing_time stats) 0
          || Qlt_bool processing_time (min_processing_time stats)
       then processing_time else min_processing_time stats |}.

(** The slot after the samples [ts], oldest first. *)
Definition stats_after (i : Z) (ts : list Q) : WorkerStats :=
  foldl update_stats (initial_stats i) ts.

(** The least of a first sample and the ones after it. *)
Definition least_sample (t : Q) (ts : list Q) : Q := foldl Qmin t ts.

(** ** [queue_clear] (lines 214-218)

    The loop of [queue_clear], run by a thread that has the queue to
    itself.  [lock_held] says whether the caller holds [queue->lock], as
    the comment at line 213 asks for: [queue_dequeue] then calls
    [pthread_mutex_lock] on a mutex that its own thread holds, and the
    mutex was initialised with default attributes, so that the call does
    not return.  [fuel] bounds the number of iterations and the result
    lists the pointers handed to [free], in order. *)

Inductive clear_result : Type :=
| Cleared (freed : list ptr) (q : ThreadSafeQueue)
| Clear_relocks
    (** the inner [queue_dequeue] locks the mutex that the caller holds *)
| Clear_waits
    (** the inner [queue_dequeue] went into [pthread_cond_wait] *)
| Clear_fault
| Clear_unfinished.
    (** more iterations than [fuel] *)

Fixpoint queue_clear (lock_held : bool) (fuel : nat) (q : ThreadSafeQueue)
    : clear_result :=
  if queue_is_empty q then Cleared [] q
  else if lock_held then Clear_relocks
  else
    match fuel with
    | O => Clear_unfinished
    | S fuel' =>
        match queue_dequeue q [] with
        | Blocked => Clear_waits
        | Crashed => Clear_fault
        | Done p q' =>
            match queue_clear lock_held fuel' q' with
            | Cleared freed q'' => Cleared (p :: freed) q''
            | other => other
            end
        end
    end.

(** ** The application context and its bookkeeping *)

Definition MAX_QUEUE_SIZE : Z := 1000.
Definition DEFAULT_NUM_THREADS : nat := 8.
Definition DEFAULT_NUM_TASKS : Z := 10000.

(** The fields of [AppContext] that the bookkeeping uses; the queue field
    is [task_queue] in the source. *)
Record AppContext : Type := {
  ctx_task_queue : ThreadSafeQueue;
  worker_stats : list WorkerStats;
  worker_threads : list pthread_t;
  active_workers : Z;
  total_tasks_completed : Z;
  total_tasks_failed : Z
}.

(** What [initialize_app_context] gets from its environment. *)
Record InitEnv : Type := {
  queue_env : CreateEnv;
  calloc_worker_stats : bool;
  calloc_worker_threads : bool;
  stats_lock_init : bool;
  shutdown_lock_init : bool;
  shutdown_cond_init : bool
}.

(** A [WorkerStats] cell as [calloc] returns it. *)
Definition zeroed_stats : WorkerStats :=
  {| thread_id := 0; tasks_completed := 0; tasks_failed := 0;
     total_processing_time := 0; max_processing_time := 0;
     min_processing_time := 0 |}.

(** The body of the loop at lines 480-483. *)
Definition set_initial (i : Z) (stats : WorkerStats) : WorkerStats :=
  {| thread_id := i;
     tasks_completed := tasks_completed stats;
     tasks_failed := tasks_failed stats;
     total_processing_time := total_processing_time stats;
     max_processing_time := max_processing_time stats;
     min_processing_time := 1000 |}.

(** The loop from index [i] on, with [n] iterations left; the indices stay
    inside the block of [num_threads] cells. *)
Fixpoint init_stats_loop (stats : list WorkerStats) (i : nat) (n : nat)
    : list WorkerStats :=
  match n with
  | O => stats
  | S n' => init_stats_loop (alter (set_initial (Z.of_nat i)) i stats) (S i) n'
  end.

(** [None]: the process exits with [EXIT_FAILURE].  A negative
    [num_threads] is a [calloc] of more than the address space. *)
Definition initialize_app_context (env : InitEnv) (num_threads : Z)
    : option AppContext :=
  match queue_create (queue_env env) MAX_QUEUE_SIZE with
  | None => None
  | Some q =>
      if (num_threads <? 0) || negb (calloc_worker_stats env) then None
      else if negb (calloc_worker_threads env) then None
      else if negb (stats_lock_init env) then None
      else if negb (shutdown_lock_init env) then None
      else if negb (shutdown_cond_init env) then None
      else
        let n := Z.to_nat num_threads in
        Some {| ctx_task_queue := q;
                worker_stats := init_stats_loop (replicate n zeroed_stats) 0 n;
                worker_threads := replicate n 0;
                active_workers := num_threads;
                total_tasks_completed := 0;
                total_tasks_failed := 0 |}
  end.

(** Lines 287-300 of [worker_thread]: worker [thread_id] records a task
    that took [processing_time]. *)
Definition record_completion (ctx : AppContext) (thread_id : Z)
    (processing_time : Q) : option AppContext :=
  if 0 <=? thread_id then
    match worker_stats ctx !! Z.to_nat thread_id with
    | None => None
    | Some stats =>
        Some {| ctx_task_queue := ctx_task_queue ctx;
                worker_stats :=
                  <[Z.to_nat thread_id := update_stats stats processing_time]>
                    (worker_stats ctx);
                worker_threads := worker_threads ctx;
                active_workers := active_workers ctx;
                total_tasks_completed := int_wrap (total_tasks_completed ctx + 1);
                total_tasks_failed := total_tasks_failed ctx |}
    end
  else None.

(** Completions in the order in which the workers take [stats_lock]. *)
Fixpoint record_all (ctx : AppContext) (done : list (Z * Q)) : option AppContext :=
  match done with
  | [] => Some ctx
  | (thread_id, processing_time) :: rest =>
      match record_completion ctx thread_id processing_time with
      | None => None
      | Some ctx' => record_all ctx' rest
      end
  end.

(** The sum of the [tasks_completed] counters. *)
Definition completed_sum (stats : list WorkerStats) : Z :=
  foldr (λ s acc, tasks_completed s + acc) 0 stats.

(** The loop of [monitor_thread] at lines 371-375 from index [i] on, with
    [n] iterations left: completed, failed, time. *)
Fixpoint monitor_totals (stats : list WorkerStats) (i : nat) (n : nat)
    (acc : Z * Z * Q) : option (Z * Z * Q) :=
  match n with
  | O => Some acc
  | S n' =>
      match stats !! i with
      | None => None
      | Some s =>
          let '(completed, failed, time) := acc in
          monitor_totals stats (S i) n'
            (long_wrap (completed + tasks_completed s),
             long_wrap (failed + tasks_failed s),
             (time + total_processing_time s)%Q)
      end
  end.

Definition monitor_snapshot (ctx : AppContext) : option (Z * Z * Q) :=
  monitor_totals (worker_stats ctx) 0 DEFAULT_NUM_THREADS (0, 0, 0%Q).

(** What the bookkeeping keeps true: the counters add up to the total,
    none is negative, no failure is ever counted. *)
Definition books_balance (ctx : AppContext) (k : Z) : Prop :=
  total_tasks_completed ctx = k ∧
  completed_sum (worker_stats ctx) = k ∧
  total_tasks_failed ctx = 0 ∧
  Forall (λ s, 0 <= tasks_completed s ∧ tasks_failed s = 0) (worker_stats ctx).

(** ** The loop of [worker_thread] (lines 269-311)

    The worker has the queue to itself, so that a [queue_dequeue] that
    goes into [pthread_cond_wait] stays there.  One [worker_env] per
    iteration: the values that the three reads of [shutdown_requested]
    yield and the time that [get_time_diff] measures for the task.
    [simulate_work] and [sched_yield] change nothing that is modelled. *)

Record worker_env : Type := {
  at_loop_head : Z;
  in_dequeue : Z;
  after_empty : Z;
  measured_time : Q
}.

Inductive worker_end : Type :=
| Worker_exits
| Worker_waits
| Worker_fault
| Worker_running.
    (** more iterations than environments *)

Definition with_queue (ctx : AppContext) (q : ThreadSafeQueue) : AppContext :=
  {| ctx_task_queue := q;
     worker_stats := worker_stats ctx;
     worker_threads := worker_threads ctx;
     active_workers := active_workers ctx;
     total_tasks_completed := total_tasks_completed ctx;
     total_tasks_failed := total_tasks_failed ctx |}.

(** The result lists the tasks handed to [free], in order. *)
Fixpoint worker_loop (thread_id : Z) (envs : list worker_env) (ctx : AppContext)
    : worker_end * AppContext * list ptr :=
  match envs with
  | [] => (Worker_running, ctx, [])
  | e :: rest =>
      if is_set (at_loop_head e) then (Worker_exits, ctx, [])
      else
        match dequeue_loop (in_dequeue e) (ctx_task_queue ctx) with
        | Wait _ => (Worker_waits, ctx, [])
        | Undefined => (Worker_fault, ctx, [])
        | Return task q' _ =>
            if task =? NULL then
              if is_set (after_empty e) then (Worker_exits, with_queue ctx q', [])
              else worker_loop thread_id rest (with_queue ctx q')
            else
              match record_completion (with_queue ctx q') thread_id
                      (measured_time e) with
              | None => (Worker_fault, with_queue ctx q', [])
              | Some ctx' =>
                  let '(how, ctx'', freed) := worker_loop thread_id rest ctx' in
                  (how, ctx'', task :: freed)
              end
        end
  end.

(** ** The creation of the workers (lines 575-580) and [worker_thread] as
       a whole (lines 248-315) *)

(** A started thread: its handle and the argument of its start routine. *)
Record started : Type := {
  started_handle : pthread_t;
  started_arg : ptr
}.

(** The loop of [main] from index [i] on, with [n] iterations left.
    [ctx_addr] is [&ctx]; [results] is what the calls of [pthread_create]
    yield, the handle of the new thread or [None] for a failure, after
    which the process exits; the handle is stored in
    [ctx.worker_threads[i]]. *)
Fixpoint create_workers (ctx_addr : ptr) (results : list (option pthread_t))
    (i : Z) (n : nat) (table : list pthread_t)
    : option (list pthread_t * list started) :=
  match n with
  | O => Some (table, [])
  | S n' =>
      match results with
      | Some h :: rest =>
          match array_store table i h with
          | None => None
          | Some table' =>
              match create_workers ctx_addr rest (int_wrap (i + 1)) n' table' with
              | None => None
              | Some (final, threads) =>
                  Some (final,
                        {| started_handle := h; started_arg := ctx_addr |}
                          :: threads)
              end
          end
      | _ => None
      end
  end.

Definition with_threads (ctx : AppContext) (table : list pthread_t) : AppContext :=
  {| ctx_task_queue := ctx_task_queue ctx;
     worker_stats := worker_stats ctx;
     worker_threads := table;
     active_workers := active_workers ctx;
     total_tasks_completed := total_tasks_completed ctx;
     total_tasks_failed := total_tasks_failed ctx |}.

(** [worker_thread]: [ctx] is the context that the argument points to,
    [self] is [pthread_self()].  The identity that the scan finds is the
    [thread_id] of the loop; without one the worker returns. *)
Definition worker_thread (self : pthread_t) (envs : list worker_env)
    (ctx : AppContext)
    : list worker_event * (worker_end * AppContext * list ptr) :=
  let '(trace, found) := worker_identify (worker_threads ctx) self in
  match found with
  | Found thread_id => (trace, worker_loop thread_id envs ctx)
  | Not_found => (trace, (Worker_exits, ctx, []))
  | Out_of_bounds => (trace, (Worker_fault, ctx, []))
  end.

(** ** [task_generator_thread] (lines 318-353)

    The generator has the queue to itself.  One [generator_env] per
    iteration: the value read from [shutdown_requested] at the loop head,
    what [malloc] returns and what the fresh block holds where the code
    does not write, the value of [rand()], the time, and the wake-ups of
    the [queue_enqueue] call. *)

Record generator_env : Type := {
  g_at_loop_head : Z;
  g_malloc : option ptr;
  g_garbage : timeval;
  g_rand : Z;
  g_now : timeval;
  g_wakeups : list Z
}.

Inductive generator_event : Type :=
| G_malloc (p : ptr) (task : Task)
| G_enqueued (p : ptr)
| G_free (p : ptr)
| G_usleep.

Inductive generator_end : Type :=
| Generator_done (generated : Z)
    (** the loop is left; [generated] is the number that is printed *)
| Generator_waits
| Generator_fault
| Generator_running.

Definition new_task (task_id : Z) (e : generator_env) : Task :=
  {| task_id := task_id;
     priority := int_wrap (int_wrap (Z.rem (g_rand e) 10) + 1);
     start_time := g_now e;
     end_time := g_garbage e |}.

Fixpoint task_generator (task_id : Z) (envs : list generator_env)
    (q : ThreadSafeQueue)
    : generator_end * ThreadSafeQueue * list generator_event :=
  match envs with
  | [] => (Generator_running, q, [])
  | e :: rest =>
      if is_set (g_at_loop_head e) || negb (task_id <? DEFAULT_NUM_TASKS)
      then (Generator_done task_id, q, [])
      else
        match g_malloc e with
        | None => (Generator_done task_id, q, [])
        | Some p =>
            let task := new_task task_id e in
            match queue_enqueue q p (g_wakeups e) with
            | Blocked => (Generator_waits, q, [G_malloc p task])
            | Crashed => (Generator_fault, q, [G_malloc p task])
            | Done r q' =>
                if r =? -1 then
                  (Generator_done task_id, q', [G_malloc p task; G_free p])
                else
                  let next := int_wrap (task_id + 1) in
                  let '(how, q'', evs) := task_generator next rest q' in
                  (how, q'',
                   G_malloc p task :: G_enqueued p
                     :: (if Z.rem next 100 =? 0 then [G_usleep] else [])
                     ++ evs)
            end
        end
  end.

Fixpoint allocated (evs : list generator_event) : list (ptr * Task) :=
  match evs with
  | [] => []
  | G_malloc p task :: rest => (p, task) :: allocated rest
  | _ :: rest => allocated rest
  end.

Fixpoint handed_over (evs : list generator_event) : list ptr :=
  match evs with
  | [] => []
  | G_enqueued p :: rest => p :: handed_over rest
  | _ :: rest => handed_over rest
  end.

Fixpoint freed (evs : list generator_event) : list ptr :=
  match evs with
  | [] => []
  | G_free p :: rest => p :: freed rest
  | _ :: rest => freed rest
  end.

(** ** [get_time_diff] (lines 221-224), in exact arithmetic *)

Definition get_time_diff (start finish : timeval) : Q :=
  (inject_Z (long_wrap (tv_sec finish - tv_sec start))
   + inject_Z (long_wrap (tv_usec finish - tv_usec start)) / 1000000)%Q.

(** A time as [gettimeofday] returns it. *)
Definition timeval_ok (t : timeval) : Prop :=
  0 <= tv_sec t <= LONG_MAX ∧ 0 <= tv_usec t < 1000000.

(** [a] is earlier than [b]. *)
Definition earlier (a b : timeval) : Prop :=
  tv_sec a < tv_sec b ∨ (tv_sec a = tv_sec b ∧ tv_usec a < tv_usec b).

(* ================================================================== *)
(** * Properties *)

(** ** Arithmetic of the ring *)

Lemma int_wrap_id (z : Z) : - 2 ^ 31 <= z <= INT_MAX → int_wrap z = z.
Proof.
  unfold int_wrap, INT_MAX. intros Hz.
  rewrite Z.mod_small by lia. lia.
Qed.

Lemma ring_index_inj (c h i j : Z) :
  0 < c → 0 <= i < c → 0 <= j < c →
  (h + i) mod c = (h + j) mod c → i = j.
Proof.
  intros Hc Hi Hj Heq.
  pose proof (Z.div_mod (h + i) c ltac:(lia)) as Di.
  pose proof (Z.div_mod (h + j) c ltac:(lia)) as Dj.
  rewrite Heq in Di.
  assert ((h + i) / c = (h + j) / c) by nia.
  nia.
Qed.

Lemma ring_next (c h n : Z) :
  0 < c → ((h + 1) mod c + n) mod c = (h + (n + 1)) mod c.
Proof.
  intros Hc. rewrite Z.add_mod_idemp_l by lia. f_equal. lia.
Qed.

Lemma int_rem_ring (x c : Z) :
  0 < c <= INT_MAX → 0 <= x < c →
  int_rem (int_wrap (x + 1)) c = Some ((x + 1) mod c).
Proof.
  intros Hc Hx. unfold int_rem.
  destruct (Z.eqb_spec c 0) as [->|_]; [lia|].
  rewrite (int_wrap_id (x + 1)) by (unfold INT_MAX in *; lia).
  rewrite Z.rem_mod_nonneg by lia.
  pose proof (Z.mod_pos_bound (x + 1) c ltac:(lia)).
  rewrite int_wrap_id by (unfold INT_MAX in *; lia). done.
Qed.

Lemma array_store_in (a : list ptr) (i : Z) (v : ptr) :
  0 <= i < Z.of_nat (length a) →
  array_store a i v = Some (<[Z.to_nat i := v]> a).
Proof.
  intros Hi. unfold array_store.
  destruct (Z.leb_spec 0 i); [|lia].
  destruct (Z.ltb_spec i (Z.of_nat (length a))); [done|lia].
Qed.

Lemma array_load_in (a : list ptr) (i : Z) (x : ptr) :
  0 <= i → a !! Z.to_nat i = Some x → array_load a i = Some x.
Proof.
  intros Hi Hx. unfold array_load. destruct (Z.leb_spec 0 i); [done|lia].
Qed.

(** ** The two mutations preserve the invariant *)

Lemma enqueue_insert_eq (q : ThreadSafeQueue) (item : ptr) :
  queue_wf q → count q < capacity q →
  enqueue_insert q item = Return 0 (after_enqueue q item) (Some not_empty).
Proof.
  intros [Hc Hl Hh Ht Hn Hr] Hlt. unfold enqueue_insert, after_enqueue.
  rewrite array_store_in by lia.
  rewrite int_rem_ring by done.
  rewrite (int_wrap_id (count q + 1)) by (unfold INT_MAX in *; lia).
  done.
Qed.

Lemma after_enqueue_wf (q : ThreadSafeQueue) (item : ptr) :
  queue_wf q → count q < capacity q → queue_wf (after_enqueue q item).
Proof.
  intros [Hc Hl Hh Ht Hn Hr] Hlt.
  split; simpl; try lia.
  - by rewrite length_insert.
  - apply Z.mod_pos_bound; lia.
  - rewrite Hr, Z.add_mod_idemp_l by lia. f_equal. lia.
Qed.

Lemma after_enqueue_holds (q : ThreadSafeQueue) (item : ptr) (l : list ptr) :
  queue_wf q → count q < capacity q → holds q l →
  holds (after_enqueue q item) (l ++ [item]).
Proof.
  intros [Hc Hl Hh Ht Hn Hr] Hlt [Hcnt Hslots].
  split; simpl.
  - rewrite length_app. simpl. lia.
  - intros i x Hi.
    destruct (decide (i < length l)%nat) as [Hin|Hout].
    + rewrite lookup_app_l in Hi by done.
      rewrite list_lookup_insert_ne; [by apply Hslots|].
      intros Heq. apply Z2Nat.inj in Heq;
        [| lia | apply Z.mod_pos_bound; lia].
      rewrite Hr in Heq.
      apply ring_index_inj in Heq; lia.
    + rewrite lookup_app_r in Hi by lia.
      assert (i = length l) as ->.
      { apply lookup_lt_Some in Hi. simpl in Hi. lia. }
      rewrite Nat.sub_diag in Hi. simpl in Hi. injection Hi as <-.
      rewrite <- Hcnt, <- Hr.
      apply list_lookup_insert_eq. lia.
Qed.

Lemma holds_nonempty (q : ThreadSafeQueue) (l : list ptr) :
  holds q l → 0 < count q → ∃ x l', l = x :: l'.
Proof.
  intros [Hcnt _] Hpos. destruct l as [|x l']; [simpl in Hcnt; lia|eauto].
Qed.

Lemma holds_head (q : ThreadSafeQueue) (x : ptr) (l : list ptr) :
  queue_wf q → holds q (x :: l) → items q !! Z.to_nat (head q) = Some x.
Proof.
  intros [Hc Hl Hh Ht Hn Hr] [_ Hslots].
  specialize (Hslots 0%nat x eq_refl). simpl in Hslots.
  rewrite Z.add_0_r, Z.mod_small in Hslots by lia. done.
Qed.

Lemma dequeue_remove_eq (q : ThreadSafeQueue) (x : ptr) (l : list ptr) :
  queue_wf q → holds q (x :: l) →
  dequeue_remove q = Return x (after_dequeue q) (Some not_full).
Proof.
  intros Hwf Hq. pose proof (holds_head q x l Hwf Hq) as Hx.
  destruct Hwf as [Hc Hl Hh Ht Hn Hr]. destruct Hq as [Hcnt _].
  simpl in Hcnt.
  unfold dequeue_remove, after_dequeue.
  rewrite (array_load_in _ _ x) by (done || lia).
  rewrite array_store_in by lia.
  rewrite int_rem_ring by done.
  rewrite (int_wrap_id (count q - 1)) by (unfold INT_MAX in *; lia).
  done.
Qed.

Lemma after_dequeue_wf (q : ThreadSafeQueue) :
  queue_wf q → 0 < count q → queue_wf (after_dequeue q).
Proof.
  intros [Hc Hl Hh Ht Hn Hr] Hpos.
  split; simpl; try lia.
  - by rewrite length_insert.
  - apply Z.mod_pos_bound; lia.
  - rewrite ring_next by lia. rewrite Hr. f_equal. lia.
Qed.

Lemma after_dequeue_holds (q : ThreadSafeQueue) (x : ptr) (l : list ptr) :
  queue_wf q → holds q (x :: l) → holds (after_dequeue q) l.
Proof.
  intros [Hc Hl Hh Ht Hn Hr] [Hcnt Hslots]. simpl in Hcnt.
  split; simpl; [lia|].
  intros i y Hi.
  pose proof (lookup_lt_Some _ _ _ Hi) as Hlen.
  rewrite ring_next by lia.
  rewrite list_lookup_insert_ne.
  - replace (Z.of_nat i + 1) with (Z.of_nat (S i)) by lia.
    by apply Hslots.
  - intros Heq. apply Z2Nat.inj in Heq;
      [| lia | apply Z.mod_pos_bound; lia].
    rewrite <- (Z.mod_small (head q) (capacity q)) in Heq at 1 by lia.
    rewrite <- (Z.add_0_r (head q)) in Heq at 1.
    apply ring_index_inj in Heq; lia.
Qed.

(** ** Every section of every call keeps the queue a first-in first-out ring *)

Lemma fresh_queue_wf (env : CreateEnv) (c : Z) (q : ThreadSafeQueue) :
  0 < c <= INT_MAX →
  (∀ blk, malloc_items env = Some blk → length blk = Z.to_nat c) →
  queue_create env c = Some q →
  queue_wf q ∧ holds q [] ∧ capacity q = c.
Proof.
  intros Hc Hblk. unfold queue_create.
  destruct (malloc_queue env); simpl; [|done].
  destruct (malloc_items env) as [blk|] eqn:Eb; [|done].
  destruct (mutex_init env), (not_empty_init env), (not_full_init env);
    simpl; try done.
  intros [= <-]. split; [|split; [|done]].
  - split; simpl; try lia.
    + by apply Hblk.
    + by rewrite Z.mod_0_l by lia.
  - split; [done|]. intros i x Hi. by rewrite lookup_nil in Hi.
Qed.

Lemma enqueue_insert_step (q : ThreadSafeQueue) (item : ptr) (l : list ptr) :
  queue_wf q → holds q l → queue_is_full q = false →
  ∃ q', enqueue_events q item (enqueue_insert q item)
          = Some (q', [Enqueued item]) ∧
        queue_wf q' ∧ holds q' (l ++ [item]) ∧ capacity q' = capacity q.
Proof.
  intros Hwf Hq Hfull. unfold queue_is_full in Hfull.
  apply Z.eqb_neq in Hfull.
  assert (count q < capacity q) by (destruct Hwf; lia).
  exists (after_enqueue q item).
  rewrite enqueue_insert_eq by done. simpl.
  split; [done|].
  split; [by apply after_enqueue_wf|].
  split; [by apply after_enqueue_holds|done].
Qed.

Lemma run_section_fifo (q : ThreadSafeQueue) (l : list ptr) (s : section) :
  queue_wf q → holds q l →
  ∃ q' evs l', run_section q s = Some (q', evs) ∧
    queue_wf q' ∧ holds q' l' ∧ capacity q' = capacity q ∧
    fifo_replay l evs = Some l'.
Proof.
  intros Hwf Hq. destruct s as [item|flag item|flag]; simpl.
  - unfold enqueue_entry. destruct (queue_is_full q) eqn:Hfull.
    + exists q, [], l. simpl. eauto.
    + destruct (enqueue_insert_step q item l Hwf Hq Hfull)
        as (q' & -> & ? & ? & ?).
      exists q', [Enqueued item], (l ++ [item]). simpl. eauto.
  - unfold enqueue_woken. destruct (is_set flag).
    + exists q, [], l. simpl. eauto.
    + destruct (queue_is_full q) eqn:Hfull.
      * exists q, [], l. simpl. eauto.
      * destruct (enqueue_insert_step q item l Hwf Hq Hfull)
          as (q' & -> & ? & ? & ?).
        exists q', [Enqueued item], (l ++ [item]). simpl. eauto.
  - unfold dequeue_loop. destruct (queue_is_empty q) eqn:Hemp.
    + destruct (is_set flag); exists q, [], l; simpl; eauto.
    + unfold queue_is_empty in Hemp. apply Z.eqb_neq in Hemp.
      assert (0 < count q) as Hpos by (destruct Hwf; lia).
      destruct (holds_nonempty q l Hq Hpos) as (x & l' & ->).
      rewrite (dequeue_remove_eq q x l') by done. simpl.
      exists (after_dequeue q), [Dequeued x], l'. simpl.
      rewrite decide_True by done.
      eauto 10 using after_dequeue_wf, after_dequeue_holds.
Qed.

Lemma fifo_replay_app (l l1 : list ptr) (e1 e2 : list event) :
  fifo_replay l e1 = Some l1 →
  fifo_replay l (e1 ++ e2) = fifo_replay l1 e2.
Proof.
  revert l. induction e1 as [|[x|x] e1 IH]; intros l; simpl.
  - by intros [= ->].
  - apply IH.
  - destruct l as [|y l']; [done|]. case_decide; [apply IH|done].
Qed.

Lemma run_fifo (ss : list section) (q : ThreadSafeQueue) (l : list ptr) :
  queue_wf q → holds q l →
  ∃ q' evs l', run q ss = Some (q', evs) ∧
    queue_wf q' ∧ holds q' l' ∧ capacity q' = capacity q ∧
    fifo_replay l evs = Some l'.
Proof.
  revert q l. induction ss as [|s ss IH]; intros q l Hwf Hq; simpl.
  - exists q, [], l. eauto.
  - destruct (run_section_fifo q l s Hwf Hq)
      as (q1 & e1 & l1 & -> & Hwf1 & Hq1 & Hc1 & Hr1).
    destruct (IH q1 l1 Hwf1 Hq1) as (q2 & e2 & l2 & -> & Hwf2 & Hq2 & Hc2 & Hr2).
    exists q2, (e1 ++ e2), l2. split; [done|].
    rewrite (fifo_replay_app l l1) by done.
    split; [done|]. split; [done|]. split; [|done].
    by rewrite Hc2.
Qed.

(** What was put in is what was taken out followed by what is left. *)
Lemma fifo_replay_balance (evs : list event) (l l' : list ptr) :
  fifo_replay l evs = Some l' →
  l ++ enqueued evs = dequeued evs ++ l'.
Proof.
  revert l. induction evs as [|[x|x] evs IH]; intros l; simpl.
  - intros [= ->]. by rewrite app_nil_r.
  - intros H. apply IH in H. by rewrite <- app_assoc in H.
  - destruct l as [|y l0]; [done|]. case_decide as Hxy; [|done].
    subst y. intros H. apply IH in H. simpl. by f_equal.
Qed.

Lemma holds_live_slots (q : ThreadSafeQueue) (l : list ptr) :
  holds q l → live_slots q = l.
Proof.
  intros [Hcnt Hslots]. unfold live_slots.
  rewrite Hcnt, Nat2Z.id.
  apply list_eq. intros i.
  rewrite list_lookup_fmap.
  destruct (l !! i) as [x|] eqn:Hi.
  - pose proof (lookup_lt_Some _ _ _ Hi) as Hlen.
    rewrite lookup_seq_lt by done. simpl.
    by rewrite (Hslots i x Hi).
  - apply lookup_ge_None in Hi.
    by rewrite lookup_seq_ge by done.
Qed.

Lemma wf_holds (q : ThreadSafeQueue) : queue_wf q → holds q (live_slots q).
Proof.
  intros [Hc Hl Hh Ht Hn Hr]. unfold holds, live_slots.
  split.
  - rewrite length_fmap, length_seq. lia.
  - intros i x Hi. rewrite list_lookup_fmap in Hi.
    destruct (seq 0 (Z.to_nat (count q)) !! i) as [j|] eqn:Hj; [|done].
    apply lookup_seq in Hj as [-> Hlt]. simpl in Hi. injection Hi as <-.
    pose proof (Z.mod_pos_bound (head q + Z.of_nat i) (capacity q) ltac:(lia)).
    destruct (lookup_lt_is_Some_2 (items q)
                (Z.to_nat ((head q + Z.of_nat i) mod capacity q)) ltac:(lia))
      as [y ->].
    done.
Qed.

(** ** The queue from creation on *)

(** C1. In every state that a freshly created queue of capacity [c > 0]
    reaches through sections of [queue_enqueue] and [queue_dequeue] calls,
    in any order and with any values of the flag, [0 <= count <= capacity],
    [head] and [tail] lie in [[0, capacity)], [tail] is [count] slots after
    [head] modulo [capacity], and these [count] slots hold the items that
    were enqueued and have not been dequeued; no section has undefined
    behaviour. *)
Theorem queue_invariant_reachable (env : CreateEnv) (c : Z) (blk : list ptr)
    (q0 : ThreadSafeQueue) (ss : list section) :
  0 < c <= INT_MAX →
  malloc_items env = Some blk → length blk = Z.to_nat c →
  queue_create env c = Some q0 →
  ∃ q evs, run q0 ss = Some (q, evs) ∧
    capacity q = c ∧
    0 <= count q <= capacity q ∧
    0 <= head q < capacity q ∧
    0 <= tail q < capacity q ∧
    tail q = (head q + count q) mod capacity q ∧
    count q = Z.of_nat (length (enqueued evs)) - Z.of_nat (length (dequeued evs)) ∧
    live_slots q = drop (length (dequeued evs)) (enqueued evs).
Proof.
  intros Hc Hblk Hlen Hq0.
  destruct (fresh_queue_wf env c q0 Hc) as (Hwf0 & Hh0 & Hc0); [|done|].
  { intros blk'. rewrite Hblk. by intros [= <-]. }
  destruct (run_fifo ss q0 [] Hwf0 Hh0) as (q & evs & l & Hrun & Hwf & Hh & Hcap & Hrep).
  exists q, evs. split; [done|].
  apply fifo_replay_balance in Hrep. simpl in Hrep.
  pose proof (holds_live_slots q l Hh) as Hlive.
  destruct Hh as [Hcnt _]. destruct Hwf as [? ? ? ? ? ?].
  repeat (split; [first [done | lia | congruence]|]).
  split.
  - rewrite Hrep, length_app. lia.
  - rewrite Hlive, Hrep. by rewrite drop_app_length.
Qed.

(** A capacity-3 queue through a full cycle, a blocked and a cancelled enqueue and a drain. *)
Lemma queue_invariant_witness :
  ∃ q evs,
    run (mkQueue [7; 7; 7] 0 0 0 3)
        [EnqEntry 11; EnqEntry 12; DeqLoop 0; EnqEntry 13; EnqEntry 14;
         EnqEntry 15; EnqWoken 1 15; DeqLoop 1] = Some (q, evs) ∧
    capacity q = 3 ∧
    0 <= count q <= capacity q ∧
    0 <= head q < capacity q ∧
    0 <= tail q < capacity q ∧
    tail q = (head q + count q) mod capacity q ∧
    count q = Z.of_nat (length (enqueued evs)) - Z.of_nat (length (dequeued evs)) ∧
    live_slots q = drop (length (dequeued evs)) (enqueued evs).
Proof.
  apply (queue_invariant_reachable (env_ok [7; 7; 7]) 3 [7; 7; 7]).
  - unfold INT_MAX. lia.
  - reflexivity.
  - reflexivity.
  - reflexivity.
Defined.

(** C2. Along every run of a fresh queue the items returned by successful
    [queue_dequeue] calls are, in order, the first items that successful
    [queue_enqueue] calls put in; this holds whatever tasks, with whatever
    priorities, the items point to. *)
Theorem dequeue_order_is_enqueue_order (env : CreateEnv) (c : Z) (blk : list ptr)
    (q0 : ThreadSafeQueue) (ss : list section) :
  0 < c <= INT_MAX →
  malloc_items env = Some blk → length blk = Z.to_nat c →
  queue_create env c = Some q0 →
  ∃ q evs, run q0 ss = Some (q, evs) ∧
    dequeued evs = take (length (dequeued evs)) (enqueued evs) ∧
    ∀ task_at : ptr → Task,
      (λ p, priority (task_at p)) <$> dequeued evs
      = take (length (dequeued evs)) ((λ p, priority (task_at p)) <$> enqueued evs).
Proof.
  intros Hc Hblk Hlen Hq0.
  destruct (fresh_queue_wf env c q0 Hc) as (Hwf0 & Hh0 & Hc0); [|done|].
  { intros blk'. rewrite Hblk. by intros [= <-]. }
  destruct (run_fifo ss q0 [] Hwf0 Hh0) as (q & evs & l & Hrun & _ & _ & _ & Hrep).
  exists q, evs. split; [done|].
  apply fifo_replay_balance in Hrep. simpl in Hrep.
  assert (dequeued evs = take (length (dequeued evs)) (enqueued evs)) as Hfifo.
  { rewrite Hrep. by rewrite take_app_length. }
  split; [done|].
  intros task_at. rewrite <- fmap_take. by rewrite <- Hfifo.
Qed.

(** A capacity-2 queue with enqueues and dequeues interleaved. *)
Lemma dequeue_order_witness :
  ∃ q evs,
    run (mkQueue [7; 7] 0 0 0 2)
        [EnqEntry 11; DeqLoop 0; EnqEntry 12; EnqEntry 13; DeqLoop 0]
      = Some (q, evs) ∧
    dequeued evs = take (length (dequeued evs)) (enqueued evs) ∧
    ∀ task_at : ptr → Task,
      (λ p, priority (task_at p)) <$> dequeued evs
      = take (length (dequeued evs)) ((λ p, priority (task_at p)) <$> enqueued evs).
Proof.
  apply (dequeue_order_is_enqueue_order (env_ok [7; 7]) 2 [7; 7]).
  - unfold INT_MAX. lia.
  - reflexivity.
  - reflexivity.
  - reflexivity.
Defined.

(** A task of priority 1 that arrives before tasks of priority 10 and 5
    is served before them. *)
Example priority_does_not_reorder :
  let task_at (p : ptr) : Task :=
    {| task_id := p;
       priority := if p =? 100 then 1 else if p =? 101 then 10 else 5;
       start_time := {| tv_sec := 0; tv_usec := 0 |};
       end_time := {| tv_sec := 0; tv_usec := 0 |} |} in
  (λ '(_, evs), (λ p, priority (task_at p)) <$> dequeued evs)
    <$> run (mkQueue [0; 0; 0; 0] 0 0 0 4)
          [EnqEntry 100; EnqEntry 101; EnqEntry 102; DeqLoop 0; DeqLoop 0;
           DeqLoop 0]
  = Some [1; 10; 5].
Proof. reflexivity. Qed.

(** ** Single operations *)

Lemma enqueue_insert_returns_zero (q : ThreadSafeQueue) (item : ptr) (r : Z)
    (q' : ThreadSafeQueue) (sig : option cond) :
  enqueue_insert q item = Return r q' sig → r = 0.
Proof.
  unfold enqueue_insert.
  destruct (array_store _ _ _); [|done].
  destruct (int_rem _ _); [|done].
  by intros [= <- _ _].
Qed.

(** C3. On a well-formed queue with [count < capacity], [queue_enqueue]
    (entered, or woken with the flag clear) returns 0, having written the
    item into the slot at [tail], advanced [tail] by one modulo [capacity]
    and added one to [count]; with [count > 0], [queue_dequeue] returns the
    item in the slot at [head], having advanced [head] by one modulo
    [capacity] and subtracted one from [count]; a section of either call
    that completes an operation changes [count] by exactly one, and a
    section that completes none leaves the queue as it was. *)
Theorem successful_operation_effect (q : ThreadSafeQueue) :
  queue_wf q →
  (count q < capacity q → ∀ item flag, ∃ q',
      enqueue_entry q item = Return 0 q' (Some not_empty) ∧
      (is_set flag = false →
         enqueue_woken flag q item = Return 0 q' (Some not_empty)) ∧
      items q' = <[Z.to_nat (tail q) := item]> (items q) ∧
      tail q' = (tail q + 1) mod capacity q ∧
      count q' = count q + 1 ∧
      head q' = head q ∧ capacity q' = capacity q) ∧
  (0 < count q → ∀ flag, ∃ item q',
      items q !! Z.to_nat (head q) = Some item ∧
      dequeue_loop flag q = Return item q' (Some not_full) ∧
      items q' = <[Z.to_nat (head q) := NULL]> (items q) ∧
      head q' = (head q + 1) mod capacity q ∧
      count q' = count q - 1 ∧
      tail q' = tail q ∧ capacity q' = capacity q) ∧
  (∀ s q' evs, run_section q s = Some (q', evs) →
      (evs = [] ∧ q' = q) ∨
      (∃ item, evs = [Enqueued item] ∧ count q' = count q + 1) ∨
      (∃ item, evs = [Dequeued item] ∧ count q' = count q - 1)).
Proof.
  intros Hwf. pose proof (wf_holds q Hwf) as Hq.
  assert (Henq : ∀ item, queue_is_full q = false →
            enqueue_insert q item
            = Return 0 (after_enqueue q item) (Some not_empty)).
  { intros item Hfull. apply enqueue_insert_eq; [done|].
    unfold queue_is_full in Hfull. apply Z.eqb_neq in Hfull.
    destruct Hwf; lia. }
  assert (Hdeq : queue_is_empty q = false → ∃ x,
            items q !! Z.to_nat (head q) = Some x ∧
            dequeue_remove q = Return x (after_dequeue q) (Some not_full)).
  { intros Hemp. unfold queue_is_empty in Hemp. apply Z.eqb_neq in Hemp.
    assert (0 < count q) as Hpos by (destruct Hwf; lia).
    destruct (holds_nonempty q _ Hq Hpos) as (x & l' & Hl).
    rewrite Hl in Hq. exists x.
    eauto using holds_head, dequeue_remove_eq. }
  split; [|split].
  - intros Hlt item flag. exists (after_enqueue q item).
    assert (queue_is_full q = false) as Hfull.
    { unfold queue_is_full. apply Z.eqb_neq. lia. }
    unfold enqueue_entry, enqueue_woken. rewrite Hfull, Henq by done.
    split; [done|]. split; [by intros ->|]. done.
  - intros Hpos flag.
    assert (queue_is_empty q = false) as Hemp.
    { unfold queue_is_empty. apply Z.eqb_neq. lia. }
    destruct (Hdeq Hemp) as (x & Hx & Hrem).
    exists x, (after_dequeue q). unfold dequeue_loop. rewrite Hemp, Hrem.
    done.
  - intros s q' evs. destruct s as [item|flag item|flag]; simpl.
    + unfold enqueue_entry. destruct (queue_is_full q) eqn:Hfull; simpl.
      * intros [= <- <-]. by left.
      * rewrite Henq by done. simpl. intros [= <- <-]. right. left. eauto.
    + unfold enqueue_woken. destruct (is_set flag); simpl.
      * intros [= <- <-]. by left.
      * destruct (queue_is_full q) eqn:Hfull; simpl.
        -- intros [= <- <-]. by left.
        -- rewrite Henq by done. simpl. intros [= <- <-]. right. left. eauto.
    + unfold dequeue_loop. destruct (queue_is_empty q) eqn:Hemp.
      * destruct (is_set flag); simpl; intros [= <- <-]; by left.
      * destruct (Hdeq eq_refl) as (x & _ & ->). simpl.
        intros [= <- <-]. right. right. eauto.
Qed.

(** A capacity-3 queue holding two items, with [tail] at the last slot. *)
Lemma successful_operation_witness :
  let q := mkQueue [21; 22; 0] 0 2 2 3 in
  enqueue_entry q 23 = Return 0 (mkQueue [21; 22; 23] 0 0 3 3) (Some not_empty) ∧
  dequeue_loop 0 q = Return 21 (mkQueue [0; 22; 0] 1 2 1 3) (Some not_full) ∧
  ∀ s q' evs, run_section q s = Some (q', evs) →
      (evs = [] ∧ q' = q) ∨
      (∃ item, evs = [Enqueued item] ∧ count q' = count q + 1) ∨
      (∃ item, evs = [Dequeued item] ∧ count q' = count q - 1).
Proof.
  intros q.
  assert (Hwf : queue_wf q).
  { split; simpl; first [reflexivity | unfold INT_MAX; lia]. }
  split; [reflexivity|]. split; [reflexivity|].
  apply (successful_operation_effect q Hwf).
Defined.

(** C4. A [queue_enqueue] call that found the queue full, kept waiting at
    every wake-up at which the flag was clear, and is woken with the flag
    set returns -1, which is not the success value 0, and leaves [items],
    [head], [tail] and [count] as they were when the call began; whatever
    queue a woken call finds, with the flag set it returns -1 without
    touching it and without signalling. *)
Theorem enqueue_cancelled_no_insert (q : ThreadSafeQueue) (item : ptr)
    (before : list Z) (flag : Z) (later : list Z) :
  queue_is_full q = true →
  Forall (λ f, is_set f = false) before →
  is_set flag = true →
  queue_enqueue q item (before ++ flag :: later) = Done (-1) q ∧
  (∀ q1, enqueue_woken flag q1 item = Return (-1) q1 None) ∧
  -1 ≠ 0.
Proof.
  intros Hfull Hbefore Hflag.
  assert (Hwoken : ∀ q1, enqueue_woken flag q1 item = Return (-1) q1 None).
  { intros q1. unfold enqueue_woken. by rewrite Hflag. }
  split; [|split; [done|lia]].
  unfold queue_enqueue, enqueue_entry. rewrite Hfull.
  induction Hbefore as [|f before Hf _ IH]; simpl.
  - by rewrite Hwoken.
  - unfold enqueue_woken at 1. by rewrite Hf, Hfull.
Qed.

(** A full capacity-2 queue; the third wake-up finds the flag set. *)
Lemma enqueue_cancelled_witness :
  let q := mkQueue [21; 22] 1 1 2 2 in
  queue_enqueue q 23 ([0; 0] ++ 1 :: [0]) = Done (-1) q ∧
  (∀ q1, enqueue_woken 1 q1 23 = Return (-1) q1 None) ∧
  -1 ≠ 0.
Proof.
  intros q. apply (enqueue_cancelled_no_insert q 23 [0; 0] 1 [0]).
  - reflexivity.
  - repeat constructor.
  - reflexivity.
Defined.

(** C5. A [queue_dequeue] call that finds [count == 0] with the flag set
    returns [NULL] in its first section, without waiting, without
    signalling and with the queue as it was. *)
Theorem dequeue_drain_immediate (q : ThreadSafeQueue) (flag : Z) (later : list Z) :
  count q = 0 → is_set flag = true →
  dequeue_loop flag q = Return NULL q None ∧
  queue_dequeue q (flag :: later) = Done NULL q.
Proof.
  intros Hcount Hflag.
  assert (dequeue_loop flag q = Return NULL q None) as Hloop.
  { unfold dequeue_loop, queue_is_empty. by rewrite Hcount, Hflag. }
  split; [done|]. simpl. by rewrite Hloop.
Qed.

(** An empty capacity-2 queue with the flag set. *)
Lemma dequeue_drain_witness :
  let q := mkQueue [0; 0] 1 1 0 2 in
  dequeue_loop 1 q = Return NULL q None ∧
  queue_dequeue q (1 :: []) = Done NULL q.
Proof.
  intros q. apply (dequeue_drain_immediate q 1 []); reflexivity.
Defined.

(** C10. A [queue_enqueue] call that begins with [count == capacity] and
    the flag already set does not return: its first section ends in
    [pthread_cond_wait], the call stays blocked as long as no wake-up
    comes, and only the first wake-up makes it return -1; a
    [queue_dequeue] call that begins with [count == 0] and the flag set
    returns [NULL] at once. *)
Theorem enqueue_reads_flag_after_wait (q : ThreadSafeQueue) (item : ptr)
    (flag : Z) (later : list Z) :
  count q = capacity q → is_set flag = true →
  enqueue_entry q item = Wait not_full ∧
  queue_enqueue q item [] = Blocked ∧
  queue_enqueue q item (flag :: later) = Done (-1) q ∧
  ∀ q1, count q1 = 0 → queue_dequeue q1 (flag :: later) = Done NULL q1.
Proof.
  intros Hfull Hflag.
  assert (enqueue_entry q item = Wait not_full) as Hentry.
  { unfold enqueue_entry, queue_is_full. rewrite Hfull.
    by rewrite Z.eqb_refl. }
  split; [done|]. unfold queue_enqueue. rewrite Hentry. simpl.
  split; [done|]. split.
  - unfold enqueue_woken. by rewrite Hflag.
  - intros q1 Hq1. unfold dequeue_loop, queue_is_empty.
    by rewrite Hq1, Hflag.
Qed.

(** A full capacity-2 queue with the flag set from the start. *)
Lemma enqueue_reads_flag_witness :
  let q := mkQueue [21; 22] 0 0 2 2 in
  enqueue_entry q 23 = Wait not_full ∧
  queue_enqueue q 23 [] = Blocked ∧
  queue_enqueue q 23 (1 :: []) = Done (-1) q ∧
  ∀ q1, count q1 = 0 → queue_dequeue q1 (1 :: []) = Done NULL q1.
Proof.
  intros q. apply (enqueue_reads_flag_after_wait q 23 1 []); reflexivity.
Defined.

(** ** Shutdown and the waiting threads *)

Lemma signal_handler_frame (sig : Z) (s : system) :
  task_queue (signal_handler sig s) = task_queue s ∧
  threads (signal_handler sig s) = threads s.
Proof.
  unfold signal_handler, signal_handler_actions.
  by destruct ((sig =? SIGINT) || (sig =? SIGTERM)).
Qed.

Lemma parked_cannot_run (flag : Z) (q : ThreadSafeQueue) (t : thread) :
  parked t = true → next_section flag q t = None.
Proof. by destruct t as [| ? []| | |[]| |]. Qed.

Lemma step_parked (s : system) (a : action) :
  Forall (λ t, parked t = true) (threads s) →
  task_queue (step s a) = task_queue s ∧ threads (step s a) = threads s.
Proof.
  intros Hall. destruct a as [tid chosen|sig|]; simpl.
  - destruct (threads s !! tid) as [t|] eqn:Ht; [|done].
    rewrite parked_cannot_run; [done|].
    rewrite Forall_lookup in Hall. by apply (Hall tid).
  - apply signal_handler_frame.
  - done.
Qed.

(** Once every thread is suspended or has returned, no schedule changes
    the queue or any thread, whatever happens to the flag. *)
Lemma exec_parked (schedule : list action) (s : system) :
  Forall (λ t, parked t = true) (threads s) →
  task_queue (exec s schedule) = task_queue s ∧
  threads (exec s schedule) = threads s.
Proof.
  revert s. induction schedule as [|a schedule IH]; intros s Hall; [done|].
  simpl. destruct (step_parked s a Hall) as [Hq Ht].
  destruct (IH (step s a)) as [Hq' Ht'].
  - by rewrite Ht.
  - unfold exec in *. by rewrite Hq', Ht', Hq, Ht.
Qed.

Lemma full_queue_producer_blocked (schedule : list action) (flag : Z)
    (out : list string) :
  let s := {| task_queue := mkQueue [21] 0 0 1 1; shutdown_requested := flag;
              threads := [Enqueue_call 22]; stdout := out |} in
  threads (exec s schedule) = [Enqueue_call 22] ∨
  threads (exec s schedule) = [Enqueue_wait 22 false].
Proof.
  revert flag out. induction schedule as [|a schedule IH]; intros flag out;
    [by left|].
  destruct a as [[|tid] chosen|sig|]; simpl.
  - right. by apply exec_parked; repeat constructor.
  - apply IH.
  - unfold signal_handler, signal_handler_actions.
    destruct ((sig =? SIGINT) || (sig =? SIGTERM)); apply IH.
  - apply IH.
Qed.

(** C6. The worker that was suspended in [queue_dequeue] on the empty
    queue when the flag was set stays suspended under every schedule, and
    so does, from its first section on, the producer that calls
    [queue_enqueue] on a full queue after the flag was set: neither call
    ever returns. *)
Theorem shutdown_leaves_waiters_blocked :
  let s := exec idle_worker [Run 0 0; Main_shutdown] in
  (shutdown_requested s = 1 ∧ threads s = [Dequeue_wait false] ∧
   ∀ schedule, threads (exec s schedule) = [Dequeue_wait false]) ∧
  (shutdown_requested late_producer = 1 ∧
   ∀ schedule,
     threads (exec late_producer schedule) = [Enqueue_call 22] ∨
     threads (exec late_producer schedule) = [Enqueue_wait 22 false]).
Proof.
  split.
  - split; [done|]. split; [done|].
    intros schedule. by apply exec_parked; repeat constructor.
  - split; [done|].
    intros schedule. apply full_queue_producer_blocked.
Qed.

(** A waiting consumer does return once a producer signals [not_empty]:
    the threads of the model are not blocked by construction. *)
Example signal_wakes_waiter :
  threads (exec {| task_queue := mkQueue [0] 0 0 0 1; shutdown_requested := 0;
                   threads := [Dequeue_call; Enqueue_call 22]; stdout := [] |}
                [Run 0 0; Run 1 0; Run 0 0])
  = [Dequeue_ret 22; Enqueue_ret 0].
Proof. reflexivity. Qed.

(** ** Worker identification *)

Lemma scan_finds_first (worker_threads : list pthread_t) (self : pthread_t)
    (k a n : nat) :
  (k < n)%nat →
  worker_threads !! (a + k)%nat = Some self →
  (∀ j, (a <= j < a + k)%nat → worker_threads !! j ≠ Some self) →
  scan_worker_threads worker_threads self (Z.of_nat a) n
  = ((λ j : nat, read_worker_threads (Z.of_nat j)) <$> seq a (S k),
     Found (Z.of_nat (a + k))).
Proof.
  revert a n. induction k as [|k IH]; intros a n Hn Hself Hbefore.
  - destruct n as [|n]; [lia|]. simpl.
    rewrite Nat.add_0_r in *.
    rewrite (array_load_in _ _ self) by (lia || by rewrite Nat2Z.id).
    by rewrite Z.eqb_refl.
  - destruct n as [|n]; [lia|].
    cbn [scan_worker_threads].
    assert (a < length worker_threads)%nat as Ha.
    { apply lookup_lt_Some in Hself. lia. }
    destruct (lookup_lt_is_Some_2 worker_threads a Ha) as [h Hh].
    rewrite (array_load_in _ _ h) by (lia || by rewrite Nat2Z.id).
    destruct (Z.eqb_spec h self) as [->|Hne].
    { exfalso. apply (Hbefore a); [lia|done]. }
    replace (Z.of_nat a + 1) with (Z.of_nat (S a)) by lia.
    rewrite (IH (S a) n); [| lia | | ].
    + simpl. do 3 f_equal. lia.
    + by replace (S a + k)%nat with (a + S k)%nat by lia.
    + intros j Hj. apply Hbefore. lia.
Qed.

(** The scan alone: with [stats_lock] held the worker reads
    [worker_threads] from index 0 on and takes the first index below
    [MAX_THREADS] whose handle is [pthread_self()]. *)
Theorem worker_identity_by_table_scan (worker_threads : list pthread_t)
    (self : pthread_t) (i : nat) :
  (i < MAX_THREADS)%nat →
  worker_threads !! i = Some self →
  (∀ j, (j < i)%nat → worker_threads !! j ≠ Some self) →
  worker_identify worker_threads self
  = (lock_stats
       :: ((λ j : nat, read_worker_threads (Z.of_nat j)) <$> seq 0 (S i))
       ++ [unlock_stats],
     Found (Z.of_nat i)).
Proof.
  intros Hi Hself Hbefore. unfold worker_identify.
  change 0 with (Z.of_nat 0).
  rewrite (scan_finds_first worker_threads self i 0 MAX_THREADS); try done.
  intros j Hj. apply Hbefore. lia.
Qed.

(** The third of three workers. *)
Lemma worker_identity_witness :
  worker_identify [11; 22; 33] 33
  = (lock_stats
       :: ((λ j : nat, read_worker_threads (Z.of_nat j)) <$> seq 0 3)
       ++ [unlock_stats],
     Found 2).
Proof.
  apply (worker_identity_by_table_scan [11; 22; 33] 33 2).
  - unfold MAX_THREADS. lia.
  - reflexivity.
  - intros [|[|j]] Hj; simpl; (done || lia).
Defined.

(** C7, as the specification states it, fails: two workers started with
    the same argument obtain different identities, each through a lock
    acquisition and reads of the shared handle table, and the identity of
    a worker changes with the table. *)
Lemma worker_identity_is_looked_up :
  worker_identify [11; 22] 11
    = ([lock_stats; read_worker_threads 0; unlock_stats], Found 0) ∧
  worker_identify [11; 22] 22
    = ([lock_stats; read_worker_threads 0; read_worker_threads 1;
        unlock_stats], Found 1) ∧
  worker_identify [22; 11] 22
    = ([lock_stats; read_worker_threads 0; unlock_stats], Found 0) ∧
  ¬ (∀ table self, lock_stats ∉ (worker_identify table self).1) ∧
  ¬ (∃ identity : list pthread_t → lookup_result,
       ∀ table self, (worker_identify table self).2 = identity table).
Proof.
  do 3 (split; [reflexivity|]). split.
  - intros H. apply (H [11; 22] 11). simpl. left.
  - intros [identity H].
    pose proof (H [11; 22] 11) as H1. pose proof (H [11; 22] 22) as H2.
    vm_compute in H1, H2. rewrite <- H1 in H2. discriminate H2.
Qed.

(** ** The signal handler *)

(** C8. On [SIGINT] and on [SIGTERM] the handler first calls [printf],
    which appends to the standard output and is not async-signal-safe,
    and then sets the flag. *)
Theorem signal_handler_prints (s : system) :
  let text := (newline ++ "Shutdown signal received. Cleaning up..." ++ newline)%string in
  signal_handler SIGINT s
    = {| task_queue := task_queue s; shutdown_requested := 1;
         threads := threads s; stdout := stdout s ++ [text] |} ∧
  signal_handler SIGTERM s = signal_handler SIGINT s ∧
  signal_handler_actions SIGINT
    = [call_printf text; store_shutdown_requested 1] ∧
  forallb async_signal_safe (signal_handler_actions SIGINT) = false.
Proof. repeat split. Qed.

(** ** Worker statistics *)

Lemma Qlt_bool_true (x y : Q) : Qlt_bool x y = true ↔ (x < y)%Q.
Proof.
  unfold Qlt_bool. rewrite negb_true_iff.
  split.
  - intros H. apply Qnot_le_lt. intros Hle.
    apply Qle_bool_iff in Hle. congruence.
  - intros H. destruct (Qle_bool y x) eqn:E; [|done].
    apply Qle_bool_iff in E. exfalso. by apply (Qlt_not_le x y).
Qed.

Lemma Qlt_bool_false (x y : Q) : Qlt_bool x y = false ↔ (y <= x)%Q.
Proof.
  unfold Qlt_bool. rewrite negb_false_iff. apply Qle_bool_iff.
Qed.

Lemma update_max (m t : Q) :
  (if Qlt_bool m t then t else m) = Qmax m t.
Proof.
  unfold Qmax, GenericMinMax.gmax.
  destruct (Qcompare_spec m t) as [Heq|Hlt|Hgt].
  - destruct (Qlt_bool m t) eqn:E; [|done].
    apply Qlt_bool_true in E. rewrite Heq in E.
    by apply Qlt_irrefl in E.
  - apply Qlt_bool_true in Hlt. by rewrite Hlt.
  - apply Qlt_le_weak, Qlt_bool_false in Hgt. by rewrite Hgt.
Qed.

Lemma update_min (m t : Q) :
  ¬ (m == 0)%Q →
  (if Qeq_bool m 0 || Qlt_bool t m then t else m) = Qmin m t.
Proof.
  intros Hm. unfold Qmin, GenericMinMax.gmin.
  destruct (Qeq_bool m 0) eqn:E0.
  { exfalso. apply Hm. by apply Qeq_bool_iff. }
  simpl.
  destruct (Qcompare_spec m t) as [Heq|Hlt|Hgt].
  - destruct (Qlt_bool t m) eqn:E; [|done].
    apply Qlt_bool_true in E. rewrite Heq in E.
    by apply Qlt_irrefl in E.
  - apply Qlt_le_weak, Qlt_bool_false in Hlt. by rewrite Hlt.
  - apply Qlt_bool_true in Hgt. by rewrite Hgt.
Qed.

Lemma min_after_nonzero (rest : list Q) (stats : WorkerStats) :
  ¬ (min_processing_time stats == 0)%Q →
  Forall (λ t, ¬ (t == 0)%Q) rest →
  min_processing_time (foldl update_stats stats rest)
  = foldl Qmin (min_processing_time stats) rest.
Proof.
  revert stats. induction rest as [|t rest IH]; intros stats Hm Hall; [done|].
  apply Forall_cons in Hall as [Ht Hall]. simpl.
  assert (min_processing_time (update_stats stats t)
          = Qmin (min_processing_time stats) t) as Hstep.
  { simpl. by apply update_min. }
  rewrite IH; [by rewrite Hstep | | done].
  rewrite Hstep.
  by destruct (Q.min_dec (min_processing_time stats) t) as [-> | ->].
Qed.

(** C9, as the code has it. An update with sample [t] adds one to
    [tasks_completed] (below [LONG_MAX]), adds [t] to
    [total_processing_time] and makes [max_processing_time] the greater of
    its old value and [t]; from the initial slot, whose minimum is 1000.0,
    a first sample below 1000.0 replaces that value, and as long as no
    sample is 0 [min_processing_time] is the least sample seen. *)
Theorem update_stats_effect (stats : WorkerStats) (t : Q) (i : Z)
    (first : Q) (rest : list Q) :
  - 2 ^ 63 <= tasks_completed stats < LONG_MAX →
  (first < 1000)%Q →
  Forall (λ x, ¬ (x == 0)%Q) (first :: rest) →
  tasks_completed (update_stats stats t) = tasks_completed stats + 1 ∧
  total_processing_time (update_stats stats t)
    = (total_processing_time stats + t)%Q ∧
  max_processing_time (update_stats stats t)
    = Qmax (max_processing_time stats) t ∧
  min_processing_time (stats_after i [first]) = first ∧
  min_processing_time (stats_after i (first :: rest)) = least_sample first rest.
Proof.
  intros Hn Hfirst Hall. apply Forall_cons in Hall as [Hnz Hall].
  assert (min_processing_time (stats_after i [first]) = first) as H1.
  { unfold stats_after. simpl.
    apply Qlt_bool_true in Hfirst. by rewrite Hfirst. }
  split; [|split; [done|split; [apply update_max|split; [done|]]]].
  - simpl. unfold long_wrap, LONG_MAX in *.
    rewrite Z.mod_small by lia. lia.
  - unfold stats_after, least_sample in *.
    change (foldl update_stats (initial_stats i) (first :: rest))
      with (foldl update_stats (foldl update_stats (initial_stats i) [first]) rest).
    rewrite min_after_nonzero; [by rewrite H1 | by rewrite H1 | done].
Qed.

(** Samples 0.75, 0.25 and 2 on the slot of worker 3. *)
Lemma update_stats_witness :
  tasks_completed (update_stats (initial_stats 3) (1 # 2)) = 0 + 1 ∧
  total_processing_time (update_stats (initial_stats 3) (1 # 2))
    = (0 + (1 # 2))%Q ∧
  max_processing_time (update_stats (initial_stats 3) (1 # 2))
    = Qmax 0 (1 # 2) ∧
  min_processing_time (stats_after 3 [(3 # 4)%Q]) = (3 # 4)%Q ∧
  min_processing_time (stats_after 3 [(3 # 4)%Q; (1 # 4)%Q; 2%Q])
    = least_sample (3 # 4) [(1 # 4)%Q; 2%Q].
Proof.
  apply (update_stats_effect (initial_stats 3) (1 # 2) 3 (3 # 4)
           [(1 # 4)%Q; 2%Q]).
  - simpl. unfold LONG_MAX. lia.
  - reflexivity.
  - repeat constructor; discriminate.
Defined.

(** C9, as the specification states it, fails: a first sample of 2000
    seconds does not replace the initial minimum 1000.0, and after a
    sample of exactly 0 the next update takes the stored minimum for an
    unset one; in both cases the minimum is not the least sample seen. *)
Lemma min_is_not_least_sample :
  min_processing_time (stats_after 0 [2000%Q]) = 1000%Q ∧
  ¬ (min_processing_time (stats_after 0 [2000%Q]) == least_sample 2000 [])%Q ∧
  min_processing_time (stats_after 0 [0%Q; (1 # 2)%Q]) = (1 # 2)%Q ∧
  ¬ (min_processing_time (stats_after 0 [0%Q; (1 # 2)%Q])
     == least_sample 0 [(1 # 2)%Q])%Q.
Proof.
  split; [reflexivity|]. split; [by intros H|].
  split; [reflexivity|]. by intros H.
Qed.

(* ================================================================== *)
(** * Further properties of the queue *)

Lemma holds_unique (q : ThreadSafeQueue) (l1 l2 : list ptr) :
  holds q l1 → holds q l2 → l1 = l2.
Proof.
  intros H1 H2. by rewrite <- (holds_live_slots q l1), <- (holds_live_slots q l2).
Qed.

(** X1. Along every run from a well-formed queue nothing is lost and
    nothing is duplicated: the items that were in the queue followed by
    the items enqueued are the items dequeued followed by the items that
    are in the queue now. *)
Theorem no_loss_no_duplication (q : ThreadSafeQueue) (ss : list section) :
  queue_wf q →
  ∃ q' evs, run q ss = Some (q', evs) ∧ queue_wf q' ∧
    live_slots q ++ enqueued evs = dequeued evs ++ live_slots q'.
Proof.
  intros Hwf.
  destruct (run_fifo ss q _ Hwf (wf_holds q Hwf))
    as (q' & evs & l' & Hrun & Hwf' & Hh' & _ & Hrep).
  exists q', evs. split; [done|]. split; [done|].
  rewrite (holds_live_slots q' l' Hh'). by apply fifo_replay_balance.
Qed.

(** A capacity-3 queue that holds two items, wrapped around the end. *)
Lemma no_loss_witness :
  ∃ q' evs,
    run (mkQueue [22; 0; 21] 2 1 2 3)
        [DeqLoop 0; EnqEntry 23; EnqEntry 24; EnqEntry 25; DeqLoop 1]
      = Some (q', evs) ∧ queue_wf q' ∧
    live_slots (mkQueue [22; 0; 21] 2 1 2 3) ++ enqueued evs
    = dequeued evs ++ live_slots q'.
Proof.
  apply (no_loss_no_duplication (mkQueue [22; 0; 21] 2 1 2 3)).
  split; simpl; first [reflexivity | unfold INT_MAX; lia].
Defined.

(** X2. In a well-formed queue [head == tail] exactly when the queue is
    empty or full, and it is never both: [count] is what tells the two
    apart. *)
Theorem head_meets_tail (q : ThreadSafeQueue) :
  queue_wf q →
  (head q = tail q ↔ count q = 0 ∨ count q = capacity q) ∧
  queue_is_empty q && queue_is_full q = false.
Proof.
  intros [Hc Hl Hh Ht Hn Hr]. split.
  - split.
    + intros Heq.
      destruct (decide (count q = capacity q)) as [|Hne]; [by right|left].
      rewrite Hr in Heq.
      rewrite <- (Z.mod_small (head q) (capacity q)) in Heq at 1 by lia.
      rewrite <- (Z.add_0_r (head q)) in Heq at 1.
      apply ring_index_inj in Heq; lia.
    + intros [H0|Hfull]; rewrite Hr.
      * rewrite H0, Z.add_0_r, Z.mod_small; lia.
      * rewrite Hfull. rewrite <- (Z.mul_1_l (capacity q)) at 1.
        rewrite Z.mod_add, Z.mod_small; lia.
  - unfold queue_is_empty, queue_is_full.
    destruct (Z.eqb_spec (count q) 0) as [H0|]; [|done].
    destruct (Z.eqb_spec (count q) (capacity q)); [lia|done].
Qed.

Lemma head_meets_tail_witness :
  let q := mkQueue [21; 22; 23] 1 1 3 3 in
  (head q = tail q ↔ count q = 0 ∨ count q = capacity q) ∧
  queue_is_empty q && queue_is_full q = false.
Proof.
  intros q. apply (head_meets_tail q).
  split; simpl; first [reflexivity | unfold INT_MAX; lia].
Defined.

Lemma run_app (q : ThreadSafeQueue) (s1 s2 : list section) :
  run q (s1 ++ s2)
  = match run q s1 with
    | None => None
    | Some (q1, e1) =>
        match run q1 s2 with
        | None => None
        | Some (q2, e2) => Some (q2, e1 ++ e2)
        end
    end.
Proof.
  revert q. induction s1 as [|s s1 IH]; intros q; simpl.
  - by destruct (run q s2) as [[q2 e2]|].
  - destruct (run_section q s) as [[q1 e1]|]; [|done].
    rewrite IH. destruct (run q1 s1) as [[q1' e1']|]; [|done].
    destruct (run q1' s2) as [[q2 e2]|]; [|done].
    by rewrite app_assoc.
Qed.

Lemma enqueues_fit (xs : list ptr) (q : ThreadSafeQueue) (l : list ptr) :
  queue_wf q → holds q l →
  count q + Z.of_nat (length xs) <= capacity q →
  ∃ q', run q (EnqEntry <$> xs) = Some (q', Enqueued <$> xs) ∧
    queue_wf q' ∧ holds q' (l ++ xs) ∧ capacity q' = capacity q.
Proof.
  revert q l. induction xs as [|x xs IH]; intros q l Hwf Hq Hroom.
  - exists q. simpl. by rewrite app_nil_r.
  - simpl in Hroom.
    assert (count q < capacity q) as Hlt by lia.
    destruct (IH (after_enqueue q x) (l ++ [x])) as (q' & Hrun & Hwf' & Hh' & Hc').
    { by apply after_enqueue_wf. }
    { by apply after_enqueue_holds. }
    { simpl. lia. }
    exists q'. rewrite !fmap_cons. cbn [run run_section].
    unfold enqueue_entry, queue_is_full.
    destruct (Z.eqb_spec (count q) (capacity q)); [lia|].
    rewrite enqueue_insert_eq by done. cbn [enqueue_events Z.eqb].
    rewrite Hrun. rewrite <- app_assoc in Hh'.
    split; [done|]. split; [done|]. split; [done|].
    by rewrite Hc'.
Qed.

(** X3. On a well-formed queue as many [queue_enqueue] calls as there are
    free slots succeed at once, none waiting; afterwards the live slots
    hold the old items followed by the new ones in call order, and once
    the queue is full a further call ends in [pthread_cond_wait]. *)
Theorem enqueues_up_to_capacity (q : ThreadSafeQueue) (xs : list ptr) (y : ptr) :
  queue_wf q →
  count q + Z.of_nat (length xs) <= capacity q →
  ∃ q', run q (EnqEntry <$> xs) = Some (q', Enqueued <$> xs) ∧
    live_slots q' = live_slots q ++ xs ∧
    count q' = count q + Z.of_nat (length xs) ∧
    (count q + Z.of_nat (length xs) = capacity q →
       enqueue_entry q' y = Wait not_full).
Proof.
  intros Hwf Hroom.
  destruct (enqueues_fit xs q _ Hwf (wf_holds q Hwf) Hroom)
    as (q' & Hrun & Hwf' & Hh' & Hc').
  exists q'. split; [done|].
  pose proof (holds_live_slots q' _ Hh') as Hlive.
  split; [done|].
  assert (count q' = count q + Z.of_nat (length xs)) as Hcnt.
  { destruct Hh' as [-> _]. rewrite length_app.
    destruct (wf_holds q Hwf) as [Hq _]. lia. }
  split; [done|].
  intros Hfull. unfold enqueue_entry, queue_is_full.
  destruct (Z.eqb_spec (count q') (capacity q')); [done|lia].
Qed.

(** Scenario A of the specification: four enqueues fill a capacity-4
    queue, the fifth waits. *)
Lemma enqueues_up_to_capacity_witness :
  let q := mkQueue [0; 0; 0; 0] 0 0 0 4 in
  ∃ q', run q (EnqEntry <$> [21; 22; 23; 24])
          = Some (q', Enqueued <$> [21; 22; 23; 24]) ∧
    live_slots q' = live_slots q ++ [21; 22; 23; 24] ∧
    count q' = count q + Z.of_nat (length [21; 22; 23; 24]) ∧
    (count q + Z.of_nat (length [21; 22; 23; 24]) = capacity q →
       enqueue_entry q' 25 = Wait not_full).
Proof.
  intros q. apply (enqueues_up_to_capacity q [21; 22; 23; 24] 25).
  - split; simpl; first [reflexivity | unfold INT_MAX; lia].
  - simpl. lia.
Defined.

Lemma queue_clear_holds (fuel : nat) (q : ThreadSafeQueue) (l : list ptr) :
  queue_wf q → holds q l → (length l <= fuel)%nat →
  ∃ q', queue_clear false fuel q = Cleared l q' ∧ queue_wf q' ∧
    count q' = 0 ∧ head q' = tail q ∧ tail q' = tail q ∧
    capacity q' = capacity q.
Proof.
  assert (Hempty : ∀ q fuel, queue_wf q → holds q [] →
    ∃ q', queue_clear false fuel q = Cleared [] q' ∧ queue_wf q' ∧
      count q' = 0 ∧ head q' = tail q ∧ tail q' = tail q ∧
      capacity q' = capacity q).
  { intros q0 fuel0 Hwf [Hcnt _]. simpl in Hcnt. exists q0.
    assert (head q0 = tail q0) as ->.
    { destruct Hwf as [? ? ? ? ? Hr].
      rewrite Hr, Hcnt, Z.add_0_r, Z.mod_small; lia. }
    destruct fuel0; simpl; unfold queue_is_empty; by rewrite Hcnt. }
  revert q l. induction fuel as [|fuel IH]; intros q l Hwf Hq Hfuel.
  - destruct l; [|simpl in Hfuel; lia]. by apply Hempty.
  - destruct l as [|x l]; [by apply Hempty|].
    assert (0 < count q) as Hpos.
    { destruct Hq as [-> _]. simpl. lia. }
    destruct (IH (after_dequeue q) l)
      as (q' & Hcl & Hwf' & H0 & Hh' & Ht' & Hc').
    { by apply after_dequeue_wf. }
    { by apply (after_dequeue_holds q x). }
    { simpl in Hfuel. lia. }
    exists q'. cbn [queue_clear queue_dequeue]. unfold queue_is_empty.
    destruct (Z.eqb_spec (count q) 0); [lia|].
    rewrite (dequeue_remove_eq q x l) by done. rewrite Hcl. done.
Qed.

(** X5. [queue_clear] called with [queue->lock] held, as its comment asks
    for, returns at once on an empty queue and otherwise does not get past
    the [pthread_mutex_lock] of its first [queue_dequeue]: nothing is
    freed.  Called without the lock by a thread that has a well-formed
    queue to itself, and given at least [count] iterations, it takes every
    item out and hands the items to [free] oldest first; it leaves a
    well-formed empty queue whose [head] and [tail] are the old [tail]. *)
Theorem queue_clear_frees_all (fuel : nat) (q : ThreadSafeQueue) :
  queue_wf q → (Z.to_nat (count q) <= fuel)%nat →
  queue_clear true fuel q
    = (if queue_is_empty q then Cleared [] q else Clear_relocks) ∧
  ∃ q', queue_clear false fuel q = Cleared (live_slots q) q' ∧
    queue_wf q' ∧ count q' = 0 ∧ head q' = tail q ∧ tail q' = tail q ∧
    capacity q' = capacity q.
Proof.
  intros Hwf Hfuel. split.
  - destruct fuel; simpl; by destruct (queue_is_empty q).
  - apply queue_clear_holds; [done|by apply wf_holds|].
    unfold live_slots. by rewrite length_fmap, length_seq.
Qed.

Lemma queue_clear_witness :
  let q := mkQueue [22; 0; 21] 2 1 2 3 in
  queue_clear true 5 q
    = (if queue_is_empty q then Cleared [] q else Clear_relocks) ∧
  ∃ q', queue_clear false 5 q = Cleared (live_slots q) q' ∧
    queue_wf q' ∧ count q' = 0 ∧ head q' = tail q ∧ tail q' = tail q ∧
    capacity q' = capacity q.
Proof.
  intros q. apply (queue_clear_frees_all 5 q).
  - split; simpl; first [reflexivity | unfold INT_MAX; lia].
  - simpl. lia.
Defined.

(** What a section can do to a well-formed queue. *)
Lemma run_section_cases (q : ThreadSafeQueue) (s : section) :
  queue_wf q →
  ∃ q' evs, run_section q s = Some (q', evs) ∧
    (q' = q ∨
     (∃ item, count q < capacity q ∧ q' = after_enqueue q item) ∨
     (0 < count q ∧ q' = after_dequeue q)).
Proof.
  intros Hwf. pose proof (wf_holds q Hwf) as Hq.
  assert (Henq : ∀ item, queue_is_full q = false →
    ∃ q' evs, enqueue_events q item (enqueue_insert q item) = Some (q', evs) ∧
      (q' = q ∨
       (∃ item, count q < capacity q ∧ q' = after_enqueue q item) ∨
       (0 < count q ∧ q' = after_dequeue q))).
  { intros item Hfull. unfold queue_is_full in Hfull.
    apply Z.eqb_neq in Hfull.
    assert (count q < capacity q) by (destruct Hwf; lia).
    rewrite enqueue_insert_eq by done. simpl. eauto 10. }
  destruct s as [item|flag item|flag]; simpl.
  - unfold enqueue_entry. destruct (queue_is_full q) eqn:Hfull; [|by apply Henq].
    simpl. eauto.
  - unfold enqueue_woken. destruct (is_set flag); [simpl; eauto|].
    destruct (queue_is_full q) eqn:Hfull; [|by apply Henq].
    simpl. eauto.
  - unfold dequeue_loop. destruct (queue_is_empty q) eqn:Hemp.
    + destruct (is_set flag); simpl; eauto.
    + unfold queue_is_empty in Hemp. apply Z.eqb_neq in Hemp.
      assert (0 < count q) as Hpos by (destruct Hwf; lia).
      destruct (holds_nonempty q _ Hq Hpos) as (x & l' & Hl).
      rewrite Hl in Hq. rewrite (dequeue_remove_eq q x l') by done.
      simpl. eauto 10.
Qed.

(** A property that both mutations preserve holds along every run. *)
Lemma run_invariant (P : ThreadSafeQueue → Prop) :
  (∀ q item, queue_wf q → count q < capacity q → P q →
     P (after_enqueue q item)) →
  (∀ q, queue_wf q → 0 < count q → P q → P (after_dequeue q)) →
  ∀ ss q, queue_wf q → P q →
    ∃ q' evs, run q ss = Some (q', evs) ∧ queue_wf q' ∧ P q'.
Proof.
  intros Henq Hdeq ss. induction ss as [|s ss IH]; intros q Hwf HP; simpl.
  - eauto.
  - destruct (run_section_cases q s Hwf) as (q1 & e1 & -> & Hcase).
    assert (queue_wf q1 ∧ P q1) as [Hwf1 HP1].
    { destruct Hcase as [->|[(item & Hlt & ->)|(Hpos & ->)]].
      - done.
      - split; [by apply after_enqueue_wf|by apply Henq].
      - split; [by apply after_dequeue_wf|by apply Hdeq]. }
    destruct (IH q1 Hwf1 HP1) as (q2 & e2 & -> & Hwf2 & HP2).
    eauto.
Qed.

(** X4. The buffer keeps no reference to an item that was dequeued: along
    every run from a fresh queue each slot outside the live window holds
    [NULL] or what [malloc] left in it. *)
Theorem dequeued_slots_are_cleared (env : CreateEnv) (c : Z) (blk : list ptr)
    (q0 : ThreadSafeQueue) (ss : list section) :
  0 < c <= INT_MAX →
  malloc_items env = Some blk → length blk = Z.to_nat c →
  queue_create env c = Some q0 →
  ∃ q evs, run q0 ss = Some (q, evs) ∧
    ∀ (i : nat) v, items q !! i = Some v →
      (∃ k, 0 <= k < count q ∧ i = Z.to_nat ((head q + k) mod capacity q)) ∨
      v = NULL ∨ blk !! i = Some v.
Proof.
  intros Hc Hblk Hlen Hq0.
  destruct (fresh_queue_wf env c q0 Hc) as (Hwf0 & _ & _); [|done|].
  { intros blk'. rewrite Hblk. by intros [= <-]. }
  pose (P := λ q : ThreadSafeQueue, ∀ (i : nat) v, items q !! i = Some v →
      (∃ k, 0 <= k < count q ∧ i = Z.to_nat ((head q + k) mod capacity q)) ∨
      v = NULL ∨ blk !! i = Some v).
  destruct (run_invariant P) with (ss := ss) (q := q0)
    as (q & evs & Hrun & _ & HP); try done.
  - intros q item [Hcap Hl Hh Ht Hn Hr] Hlt HP i v. simpl.
    destruct (decide (i = Z.to_nat (tail q))) as [->|Hne].
    + intros _. left. exists (count q). split; [lia|]. by rewrite Hr.
    + rewrite list_lookup_insert_ne by done. intros Hi.
      destruct (HP i v Hi) as [(k & Hk & ->)|Hrest]; [|by right].
      left. exists k. split; [lia|done].
  - intros q [Hcap Hl Hh Ht Hn Hr] Hpos HP i v. simpl.
    destruct (decide (i = Z.to_nat (head q))) as [->|Hne].
    + rewrite list_lookup_insert_eq by lia. intros [= <-]. right. by left.
    + rewrite list_lookup_insert_ne by done. intros Hi.
      destruct (HP i v Hi) as [(k & Hk & ->)|Hrest]; [|by right].
      left. exists (k - 1).
      assert (k ≠ 0) as Hk0.
      { intros ->. apply Hne. rewrite Z.add_0_r, Z.mod_small; lia. }
      split; [lia|]. rewrite ring_next by lia. do 2 f_equal. lia.
  - unfold queue_create in Hq0.
    rewrite Hblk in Hq0.
    destruct (malloc_queue env), (mutex_init env), (not_empty_init env),
      (not_full_init env); simpl in Hq0; try done.
    injection Hq0 as <-. intros i v Hi. simpl in Hi. by right; right.
  - eauto.
Qed.

Lemma dequeued_slots_witness :
  ∃ q evs,
    run (mkQueue [7; 8; 9] 0 0 0 3)
        [EnqEntry 21; EnqEntry 22; DeqLoop 0; EnqEntry 23; DeqLoop 0]
      = Some (q, evs) ∧
    ∀ (i : nat) v, items q !! i = Some v →
      (∃ k, 0 <= k < count q ∧ i = Z.to_nat ((head q + k) mod capacity q)) ∨
      v = NULL ∨ [7; 8; 9] !! i = Some v.
Proof.
  apply (dequeued_slots_are_cleared (env_ok [7; 8; 9]) 3 [7; 8; 9]).
  - unfold INT_MAX. lia.
  - reflexivity.
  - reflexivity.
  - reflexivity.
Defined.

(* ================================================================== *)
(** * Further properties of the threads *)

Lemma wake_first_Forall (P : thread → Prop) (c : cond) (ts : list thread) :
  (∀ t, P t → P (wake t)) → Forall P ts → Forall P (wake_first c ts).
Proof.
  intros Hwake. induction 1 as [|t ts Ht Hts IH]; simpl; [done|].
  destruct (waits_on c t); constructor; auto.
Qed.

Lemma wake_first_length (c : cond) (ts : list thread) :
  length (wake_first c ts) = length ts.
Proof.
  induction ts as [|t ts IH]; simpl; [done|].
  destruct (waits_on c t); simpl; by rewrite ?IH.
Qed.

Lemma signal_opt_Forall (P : thread → Prop) (sig : option cond) (chosen : nat)
    (ts : list thread) :
  (∀ t, P t → P (wake t)) → Forall P ts → Forall P (signal_opt sig chosen ts).
Proof.
  intros Hwake Hts. destruct sig as [c|]; simpl; [|done].
  unfold cond_signal. destruct (ts !! chosen) as [t|] eqn:Ht.
  - destruct (waits_on c t).
    + apply Forall_insert; [done|]. apply Hwake.
      rewrite Forall_lookup in Hts. by apply (Hts chosen).
    + by apply wake_first_Forall.
  - by apply wake_first_Forall.
Qed.

Lemma signal_opt_length (sig : option cond) (chosen : nat) (ts : list thread) :
  length (signal_opt sig chosen ts) = length ts.
Proof.
  destruct sig as [c|]; simpl; [|done].
  unfold cond_signal. destruct (ts !! chosen) as [t|].
  - destruct (waits_on c t);
      [by rewrite length_insert|apply wake_first_length].
  - apply wake_first_length.
Qed.

Lemma next_section_wf (flag : Z) (q q' : ThreadSafeQueue) (t t' : thread)
    (sig : option cond) :
  queue_wf q → next_section flag q t = Some (t', q', sig) →
  queue_wf q' ∧ t' ≠ Faulted.
Proof.
  intros Hwf.
  assert (Hcases : ∀ s q1 evs, run_section q s = Some (q1, evs) → queue_wf q1).
  { intros s q1 evs Hs.
    destruct (run_section_cases q s Hwf) as (q2 & e2 & Hs2 & Hcase).
    rewrite Hs in Hs2. injection Hs2 as <- <-.
    destruct Hcase as [->|[(item & Hlt & ->)|(Hpos & ->)]];
      [done|by apply after_enqueue_wf|by apply after_dequeue_wf]. }
  destruct t as [item|item [|]|r| |[|]|r|]; simpl; try done.
  - pose proof (Hcases (EnqEntry item)) as H. simpl in H.
    destruct (enqueue_entry q item) as [c|r q1 sig1|] eqn:E; intros [= <- <- <-].
    + done.
    + split; [|done]. by eapply H.
    + destruct (run_section_cases q (EnqEntry item) Hwf) as (? & ? & Hs & _).
      simpl in Hs. by rewrite E in Hs.
  - pose proof (Hcases (EnqWoken flag item)) as H. simpl in H.
    destruct (enqueue_woken flag q item) as [c|r q1 sig1|] eqn:E;
      intros [= <- <- <-].
    + done.
    + split; [|done]. by eapply H.
    + destruct (run_section_cases q (EnqWoken flag item) Hwf) as (? & ? & Hs & _).
      simpl in Hs. by rewrite E in Hs.
  - pose proof (Hcases (DeqLoop flag)) as H. simpl in H.
    destruct (dequeue_loop flag q) as [c|r q1 sig1|] eqn:E; intros [= <- <- <-].
    + done.
    + split; [|done]. destruct sig1; by eapply H.
    + destruct (run_section_cases q (DeqLoop flag) Hwf) as (? & ? & Hs & _).
      simpl in Hs. by rewrite E in Hs.
  - pose proof (Hcases (DeqLoop flag)) as H. simpl in H.
    destruct (dequeue_loop flag q) as [c|r q1 sig1|] eqn:E; intros [= <- <- <-].
    + done.
    + split; [|done]. destruct sig1; by eapply H.
    + destruct (run_section_cases q (DeqLoop flag) Hwf) as (? & ? & Hs & _).
      simpl in Hs. by rewrite E in Hs.
Qed.

Lemma step_safe (s : system) (a : action) :
  queue_wf (task_queue s) → Forall (λ t, t ≠ Faulted) (threads s) →
  queue_wf (task_queue (step s a)) ∧
  Forall (λ t, t ≠ Faulted) (threads (step s a)) ∧
  length (threads (step s a)) = length (threads s).
Proof.
  intros Hwf Hts. destruct a as [tid chosen|sig|]; simpl.
  - destruct (threads s !! tid) as [t|] eqn:Ht; [|done].
    destruct (next_section _ _ t) as [[[t' q'] sig]|] eqn:Hn; [|done].
    destruct (next_section_wf _ _ _ _ _ _ Hwf Hn) as [Hwf' Ht'].
    simpl. split; [done|]. split.
    + apply signal_opt_Forall; [by intros [] | by apply Forall_insert].
    + by rewrite signal_opt_length, length_insert.
  - destruct (signal_handler_frame sig s) as [-> ->]. done.
  - done.
Qed.

(** X7. Whatever the schedule, the signals and the values of the flag, a
    system whose queue is well-formed keeps it well-formed, no call of any
    thread runs into undefined behaviour, and no thread appears or
    disappears. *)
Theorem no_schedule_breaks_queue (s : system) (schedule : list action) :
  queue_wf (task_queue s) → Forall (λ t, t ≠ Faulted) (threads s) →
  queue_wf (task_queue (exec s schedule)) ∧
  Forall (λ t, t ≠ Faulted) (threads (exec s schedule)) ∧
  length (threads (exec s schedule)) = length (threads s).
Proof.
  revert s. induction schedule as [|a schedule IH]; intros s Hwf Hts; [done|].
  destruct (step_safe s a Hwf Hts) as (Hwf1 & Hts1 & Hlen1).
  destruct (IH (step s a) Hwf1 Hts1) as (Hwf2 & Hts2 & Hlen2).
  simpl. unfold exec in *. by rewrite Hlen2.
Qed.

(** Two producers and a consumer on a capacity-1 queue, interrupted. *)
Lemma no_schedule_breaks_witness :
  let s := {| task_queue := mkQueue [0] 0 0 0 1; shutdown_requested := 0;
              threads := [Enqueue_call 21; Enqueue_call 22; Dequeue_call];
              stdout := [] |} in
  let schedule := [Run 0 0; Run 1 0; Run 2 1; Deliver SIGINT; Run 1 0] in
  queue_wf (task_queue (exec s schedule)) ∧
  Forall (λ t, t ≠ Faulted) (threads (exec s schedule)) ∧
  length (threads (exec s schedule)) = length (threads s).
Proof.
  intros s schedule. apply (no_schedule_breaks_queue s schedule).
  - split; simpl; first [reflexivity | unfold INT_MAX; lia].
  - repeat constructor; discriminate.
Defined.

Lemma step_flag_stays (s : system) (a : action) :
  is_set (shutdown_requested s) = true →
  is_set (shutdown_requested (step s a)) = true.
Proof.
  intros Hset. destruct a as [tid chosen|sig|]; simpl.
  - destruct (threads s !! tid) as [t|]; [|done].
    by destruct (next_section _ _ t) as [[[t' q'] sig]|].
  - unfold signal_handler, signal_handler_actions.
    by destruct ((sig =? SIGINT) || (sig =? SIGTERM)).
  - done.
Qed.

(** X8. Shutdown is final: once [shutdown_requested] is set, no section
    of any call, no signal and no step of [main] clears it. *)
Theorem shutdown_is_final (s : system) (schedule : list action) :
  is_set (shutdown_requested s) = true →
  is_set (shutdown_requested (exec s schedule)) = true.
Proof.
  revert s. induction schedule as [|a schedule IH]; intros s Hset; [done|].
  simpl. apply IH. by apply step_flag_stays.
Qed.

Lemma shutdown_is_final_witness :
  is_set (shutdown_requested
            (exec {| task_queue := mkQueue [0] 0 0 0 1; shutdown_requested := 1;
                     threads := [Dequeue_call; Enqueue_call 21]; stdout := [] |}
                  [Run 1 0; Deliver 10; Run 0 0; Deliver SIGTERM; Main_shutdown]))
  = true.
Proof.
  apply (shutdown_is_final _ [Run 1 0; Deliver 10; Run 0 0; Deliver SIGTERM;
                              Main_shutdown]).
  reflexivity.
Defined.

Lemma signal_wakes_producer (item : ptr) (x : ptr) (chosen : nat) :
  cond_signal not_full chosen [Enqueue_wait item false; Dequeue_ret x]
  = [Enqueue_wait item true; Dequeue_ret x].
Proof. by destruct chosen as [|[|chosen]]. Qed.

Lemma signal_without_waiter (c : cond) (r : Z) (x : ptr) (chosen : nat) :
  cond_signal c chosen [Enqueue_ret r; Dequeue_ret x]
  = [Enqueue_ret r; Dequeue_ret x].
Proof. by destruct c, chosen as [|[|chosen]]. Qed.

(** X6. A producer that waits on a full queue is released by the next
    dequeue: the consumer gets the oldest item and its signal wakes the
    producer, whose item goes in behind the others and whose call returns
    0.  If the flag has been set in the meantime the consumer still gets
    the oldest item, but the producer returns -1 and its item stays out,
    although a slot is free. *)
Theorem blocked_producer_handoff (q : ThreadSafeQueue) (item : ptr) (flag : Z)
    (out : list string) (chosen1 chosen2 : nat) :
  queue_wf q → count q = capacity q →
  let s := {| task_queue := q; shutdown_requested := flag;
              threads := [Enqueue_wait item false; Dequeue_call];
              stdout := out |} in
  let s' := exec s [Run 1 chosen1; Run 0 chosen2] in
  ∃ x rest, live_slots q = x :: rest ∧
    threads s' = [Enqueue_ret (if is_set flag then -1 else 0); Dequeue_ret x] ∧
    live_slots (task_queue s')
    = (if is_set flag then rest else rest ++ [item]).
Proof.
  intros Hwf Hfull s s'. pose proof (wf_holds q Hwf) as Hq.
  assert (0 < count q) as Hpos by (destruct Hwf; lia).
  destruct (holds_nonempty q _ Hq Hpos) as (x & rest & Hlive).
  rewrite Hlive in Hq. exists x, rest. split; [done|].
  pose proof (after_dequeue_wf q Hwf Hpos) as Hwf1.
  pose proof (after_dequeue_holds q x rest Hwf Hq) as Hq1.
  assert (dequeue_loop flag q = Return x (after_dequeue q) (Some not_full)) as Hdeq.
  { unfold dequeue_loop, queue_is_empty.
    destruct (Z.eqb_spec (count q) 0); [lia|]. by apply (dequeue_remove_eq q x rest). }
  assert (step s (Run 1 chosen1)
          = {| task_queue := after_dequeue q; shutdown_requested := flag;
               threads := [Enqueue_wait item true; Dequeue_ret x];
               stdout := out |}) as Hstep1.
  { unfold step, s. cbn [threads lookup list_lookup task_queue
                         shutdown_requested stdout next_section].
    rewrite Hdeq. cbn [signal_opt list_insert insert].
    by rewrite signal_wakes_producer. }
  subst s'. unfold exec. cbn [foldl]. rewrite Hstep1. clear Hstep1.
  unfold step. cbn [threads lookup list_lookup task_queue shutdown_requested
                    stdout next_section].
  unfold enqueue_woken. destruct (is_set flag).
  - cbn [signal_opt list_insert insert threads task_queue].
    split; [done|]. by apply holds_live_slots.
  - assert (count (after_dequeue q) < capacity (after_dequeue q)) as Hlt.
    { simpl. lia. }
    unfold queue_is_full.
    destruct (Z.eqb_spec (count (after_dequeue q)) (capacity (after_dequeue q)));
      [lia|].
    rewrite enqueue_insert_eq by done.
    cbn [signal_opt list_insert insert threads task_queue].
    rewrite signal_without_waiter. split; [done|].
    apply holds_live_slots. by apply after_enqueue_holds.
Qed.

(** Scenario A of the specification, second half: the fifth enqueue on a
    capacity-4 queue goes through after one dequeue. *)
Lemma blocked_producer_handoff_witness :
  let q := mkQueue [21; 22; 23; 24] 0 0 4 4 in
  let s := {| task_queue := q; shutdown_requested := 0;
              threads := [Enqueue_wait 25 false; Dequeue_call];
              stdout := [] |} in
  let s' := exec s [Run 1 0; Run 0 0] in
  ∃ x rest, live_slots q = x :: rest ∧
    threads s' = [Enqueue_ret (if is_set 0 then -1 else 0); Dequeue_ret x] ∧
    live_slots (task_queue s') = (if is_set 0 then rest else rest ++ [25]).
Proof.
  intros q. apply (blocked_producer_handoff q 25 0 [] 0 0).
  - split; simpl; first [reflexivity | unfold INT_MAX; lia].
  - reflexivity.
Defined.

(* ================================================================== *)
(** * Further properties of worker identification *)

Lemma scan_found_sound (worker_threads : list pthread_t) (self : pthread_t)
    (n a : nat) (tr : list worker_event) (i : Z) :
  scan_worker_threads worker_threads self (Z.of_nat a) n = (tr, Found i) →
  ∃ k : nat, i = Z.of_nat k ∧ (a <= k < a + n)%nat ∧
    worker_threads !! k = Some self ∧
    (∀ j, (a <= j < k)%nat → worker_threads !! j ≠ Some self) ∧
    tr = (λ j : nat, read_worker_threads (Z.of_nat j)) <$> seq a (S (k - a)).
Proof.
  revert a tr. induction n as [|n IH]; intros a tr; [by intros [=]|].
  cbn [scan_worker_threads].
  unfold array_load. destruct (Z.leb_spec 0 (Z.of_nat a)); [|lia].
  rewrite Nat2Z.id. unfold ptr, pthread_t in *.
  destruct (worker_threads !! a) as [h|] eqn:Ha; [|by intros [=]].
  destruct (Z.eqb_spec h self) as [->|Hne].
  - intros [= <- <-]. exists a. rewrite Nat.sub_diag.
    split; [done|]. split; [lia|]. split; [done|]. split; [|done].
    intros j Hj. lia.
  - replace (Z.of_nat a + 1) with (Z.of_nat (S a)) by lia.
    destruct (scan_worker_threads worker_threads self (Z.of_nat (S a)) n)
      as [tr' r'] eqn:Hscan.
    intros [= <- ->].
    destruct (IH (S a) tr' Hscan) as (k & -> & Hk & Hself & Hbefore & ->).
    exists k. split; [done|]. split; [lia|]. split; [done|]. split.
    + intros j Hj. destruct (decide (j = a)) as [->|].
      * rewrite Ha. by intros [= ->].
      * apply Hbefore. lia.
    + replace (S (k - a)) with (S (S (k - S a))) by lia. done.
Qed.

(** X9. An identity that [worker_thread] finds is right: it is an index
    below [MAX_THREADS] and inside [worker_threads], the handle stored
    there is the worker's own, no smaller index holds that handle, and the
    worker read the table up to that index and no further. *)
Theorem worker_identity_found_sound (worker_threads : list pthread_t)
    (self : pthread_t) (tr : list worker_event) (i : Z) :
  worker_identify worker_threads self = (tr, Found i) →
  0 <= i < Z.of_nat MAX_THREADS ∧
  i < Z.of_nat (length worker_threads) ∧
  worker_threads !! Z.to_nat i = Some self ∧
  (∀ j, (j < Z.to_nat i)%nat → worker_threads !! j ≠ Some self) ∧
  tr = lock_stats
         :: ((λ j : nat, read_worker_threads (Z.of_nat j))
               <$> seq 0 (S (Z.to_nat i)))
         ++ [unlock_stats].
Proof.
  unfold worker_identify.
  destruct (scan_worker_threads worker_threads self 0 MAX_THREADS)
    as [tr' r] eqn:Hscan.
  intros [= <- ->].
  change 0 with (Z.of_nat 0) in Hscan.
  apply scan_found_sound in Hscan as (k & -> & Hk & Hself & Hbefore & ->).
  rewrite Nat2Z.id, Nat.sub_0_r.
  split; [lia|]. split.
  { apply lookup_lt_Some in Hself. lia. }
  split; [done|]. split; [|done].
  intros j Hj. apply Hbefore. lia.
Qed.

Lemma worker_identity_found_witness :
  0 <= 1 < Z.of_nat MAX_THREADS ∧
  1 < Z.of_nat (length [11; 22; 22]) ∧
  [11; 22; 22] !! Z.to_nat 1 = Some 22 ∧
  (∀ j, (j < Z.to_nat 1)%nat → [11; 22; 22] !! j ≠ Some 22) ∧
  [lock_stats; read_worker_threads 0; read_worker_threads 1; unlock_stats]
  = lock_stats
      :: ((λ j : nat, read_worker_threads (Z.of_nat j))
            <$> seq 0 (S (Z.to_nat 1)))
      ++ [unlock_stats].
Proof.
  apply (worker_identity_found_sound [11; 22; 22] 22).
  reflexivity.
Defined.


Lemma scan_absent (worker_threads : list pthread_t) (self : pthread_t)
    (n a : nat) :
  (a <= length worker_threads)%nat →
  (∀ j, (a <= j < a + n)%nat → worker_threads !! j ≠ Some self) →
  scan_worker_threads worker_threads self (Z.of_nat a) n
  = if decide (a + n <= length worker_threads)%nat
    then ((λ j : nat, read_worker_threads (Z.of_nat j)) <$> seq a n, Not_found)
    else ((λ j : nat, read_worker_threads (Z.of_nat j))
            <$> seq a (S (length worker_threads - a)), Out_of_bounds).
Proof.
  revert a. induction n as [|n IH]; intros a Ha Habs.
  - rewrite Nat.add_0_r. by rewrite decide_True by done.
  - cbn [scan_worker_threads].
    unfold array_load. destruct (Z.leb_spec 0 (Z.of_nat a)); [|lia].
    rewrite Nat2Z.id. unfold ptr, pthread_t in *.
    destruct (worker_threads !! a) as [h|] eqn:Hh.
    + pose proof (lookup_lt_Some _ _ _ Hh) as Hlt.
      destruct (Z.eqb_spec h self) as [->|Hne].
      { exfalso. apply (Habs a); [lia|done]. }
      replace (Z.of_nat a + 1) with (Z.of_nat (S a)) by lia.
      rewrite IH; [|lia|intros j Hj; apply Habs; lia].
      destruct (decide (S a + n <= length worker_threads)%nat).
      * by rewrite decide_True by lia.
      * rewrite decide_False by lia.
        replace (S (length worker_threads - a))
          with (S (S (length worker_threads - S a))) by lia.
        done.
    + apply lookup_ge_None in Hh.
      rewrite decide_False by lia.
      by replace (length worker_threads - a)%nat with 0%nat by lia.
Qed.

(** X10. A worker whose handle is not in the first [MAX_THREADS] entries
    of [worker_threads] does not get an identity.  If the table has
    [MAX_THREADS] entries or more, the scan reads [MAX_THREADS] of them,
    the lock is released and the worker gives up; if the table is shorter,
    as the table of [num_threads] entries that [initialize_app_context]
    allocates is, the scan runs past its end: it reads index [length]. *)
Theorem worker_identity_absent (worker_threads : list pthread_t)
    (self : pthread_t) :
  (∀ j, (j < MAX_THREADS)%nat → worker_threads !! j ≠ Some self) →
  ((MAX_THREADS <= length worker_threads)%nat →
     worker_identify worker_threads self
     = (lock_stats
          :: ((λ j : nat, read_worker_threads (Z.of_nat j))
                <$> seq 0 MAX_THREADS)
          ++ [unlock_stats], Not_found)) ∧
  ((length worker_threads < MAX_THREADS)%nat →
     (worker_identify worker_threads self).2 = Out_of_bounds ∧
     read_worker_threads (Z.of_nat (length worker_threads))
       ∈ (worker_identify worker_threads self).1).
Proof.
  intros Habs. unfold worker_identify.
  change 0 with (Z.of_nat 0).
  rewrite scan_absent; [|lia|intros j Hj; apply Habs; lia].
  rewrite Nat.add_0_l, Nat.sub_0_r.
  split; intros Hlen.
  - by rewrite decide_True by done.
  - rewrite decide_False by lia. split; [done|].
    cbn [fst]. apply elem_of_cons. right. apply elem_of_app. left.
    apply list_elem_of_fmap. exists (length worker_threads).
    split; [done|]. apply elem_of_seq. lia.
Qed.

(** A worker that runs before [pthread_create] has stored its handle in
    the table of two workers. *)
Lemma worker_identity_absent_witness :
  ((MAX_THREADS <= length [11; 0])%nat →
     worker_identify [11; 0] 22
     = (lock_stats
          :: ((λ j : nat, read_worker_threads (Z.of_nat j))
                <$> seq 0 MAX_THREADS)
          ++ [unlock_stats], Not_found)) ∧
  ((length [11; 0] < MAX_THREADS)%nat →
     (worker_identify [11; 0] 22).2 = Out_of_bounds ∧
     read_worker_threads (Z.of_nat (length [11; 0]))
       ∈ (worker_identify [11; 0] 22).1).
Proof.
  apply (worker_identity_absent [11; 0] 22).
  intros [|[|j]] _; simpl; discriminate.
Defined.

(* ================================================================== *)
(** * The application context and the statistics *)

Lemma init_stats_loop_spec (n : nat) (ready : list WorkerStats) :
  init_stats_loop (ready ++ replicate n zeroed_stats) (length ready) n
  = ready ++ ((λ i : nat, initial_stats (Z.of_nat i)) <$> seq (length ready) n).
Proof.
  revert ready. induction n as [|n IH]; intros ready; [done|].
  cbn [init_stats_loop replicate seq fmap list_fmap].
  replace (alter (set_initial (Z.of_nat (length ready))) (length ready)
             (ready ++ zeroed_stats :: replicate n zeroed_stats))
    with ((ready ++ [initial_stats (Z.of_nat (length ready))])
            ++ replicate n zeroed_stats).
  - specialize (IH (ready ++ [initial_stats (Z.of_nat (length ready))])).
    rewrite length_app, Nat.add_1_r in IH. rewrite IH.
    by rewrite <- app_assoc.
  - rewrite <- app_assoc. simpl.
    rewrite alter_app_r_alt by done. by rewrite Nat.sub_diag.
Qed.

Lemma initialize_app_context_inv (env : InitEnv) (num_threads : Z)
    (ctx : AppContext) :
  initialize_app_context env num_threads = Some ctx →
  0 <= num_threads ∧
  queue_create (queue_env env) MAX_QUEUE_SIZE = Some (ctx_task_queue ctx) ∧
  worker_stats ctx
    = ((λ i : nat, initial_stats (Z.of_nat i)) <$> seq 0 (Z.to_nat num_threads)) ∧
  worker_threads ctx = replicate (Z.to_nat num_threads) 0 ∧
  active_workers ctx = num_threads ∧
  total_tasks_completed ctx = 0 ∧ total_tasks_failed ctx = 0.
Proof.
  unfold initialize_app_context.
  destruct (queue_create (queue_env env) MAX_QUEUE_SIZE) as [q|] eqn:Hq; [|done].
  destruct (Z.ltb_spec num_threads 0); [done|].
  destruct (calloc_worker_stats env), (calloc_worker_threads env),
    (stats_lock_init env), (shutdown_lock_init env), (shutdown_cond_init env);
    cbn [negb orb]; try done.
  intros [= <-]. cbn [ctx_task_queue worker_stats worker_threads active_workers
                      total_tasks_completed total_tasks_failed].
  split; [done|]. split; [done|].
  split; [apply (init_stats_loop_spec _ [])|done].
Qed.

(** X11. When [initialize_app_context] succeeds, the queue is a
    well-formed empty queue of capacity [MAX_QUEUE_SIZE], there is one
    statistics slot per worker, slot [i] carries [thread_id] [i], zero
    counters and the minimum 1000.0, and both totals are zero. *)
Theorem initialize_app_context_state (env : InitEnv) (num_threads : Z)
    (blk : list ptr) (ctx : AppContext) :
  malloc_items (queue_env env) = Some blk →
  length blk = Z.to_nat MAX_QUEUE_SIZE →
  initialize_app_context env num_threads = Some ctx →
  0 <= num_threads ∧
  queue_wf (ctx_task_queue ctx) ∧
  capacity (ctx_task_queue ctx) = MAX_QUEUE_SIZE ∧
  count (ctx_task_queue ctx) = 0 ∧
  worker_stats ctx
    = ((λ i : nat, initial_stats (Z.of_nat i)) <$> seq 0 (Z.to_nat num_threads)) ∧
  length (worker_threads ctx) = Z.to_nat num_threads ∧
  active_workers ctx = num_threads ∧
  total_tasks_completed ctx = 0 ∧ total_tasks_failed ctx = 0.
Proof.
  intros Hblk Hlen Hinit.
  destruct (initialize_app_context_inv env num_threads ctx Hinit)
    as (Hn & Hq & Hstats & Hthreads & Hact & Htot & Hfail).
  destruct (fresh_queue_wf (queue_env env) MAX_QUEUE_SIZE (ctx_task_queue ctx))
    as (Hwf & [Hc _] & Hcap);
    [unfold MAX_QUEUE_SIZE, INT_MAX; lia| |done|].
  { intros blk'. rewrite Hblk. by intros [= <-]. }
  repeat (split; [done|]). split; [|done].
  rewrite Hthreads. apply length_replicate.
Qed.

Lemma initialize_app_context_witness :
  let env := {| queue_env := env_ok (replicate 1000 7);
                calloc_worker_stats := true; calloc_worker_threads := true;
                stats_lock_init := true; shutdown_lock_init := true;
                shutdown_cond_init := true |} in
  ∃ ctx, initialize_app_context env 8 = Some ctx ∧
    0 <= 8 ∧
    queue_wf (ctx_task_queue ctx) ∧
    capacity (ctx_task_queue ctx) = MAX_QUEUE_SIZE ∧
    count (ctx_task_queue ctx) = 0 ∧
    worker_stats ctx
      = ((λ i : nat, initial_stats (Z.of_nat i)) <$> seq 0 (Z.to_nat 8)) ∧
    length (worker_threads ctx) = Z.to_nat 8 ∧
    active_workers ctx = 8 ∧
    total_tasks_completed ctx = 0 ∧ total_tasks_failed ctx = 0.
Proof.
  intros env. eexists. split; [reflexivity|].
  apply (initialize_app_context_state env 8 (replicate 1000 7)).
  - reflexivity.
  - reflexivity.
  - reflexivity.
Defined.

Lemma completed_sum_insert (stats : list WorkerStats) (i : nat)
    (old new : WorkerStats) :
  stats !! i = Some old →
  completed_sum (<[i := new]> stats)
  = completed_sum stats - tasks_completed old + tasks_completed new.
Proof.
  revert i. induction stats as [|s stats IH]; intros [|i]; simpl; try done.
  - intros [= ->]. unfold completed_sum. simpl. lia.
  - intros Hi. unfold completed_sum in *. simpl. rewrite (IH i Hi). lia.
Qed.

Lemma completed_sum_bound (stats : list WorkerStats) (i : nat) (s : WorkerStats) :
  Forall (λ s, 0 <= tasks_completed s) stats → stats !! i = Some s →
  tasks_completed s <= completed_sum stats.
Proof.
  intros Hall. revert i. induction Hall as [|s0 stats H0 Hall IH];
    intros [|i]; simpl; try done.
  - intros [= ->]. unfold completed_sum. simpl.
    assert (0 <= completed_sum stats); [|unfold completed_sum in *; lia].
    clear -Hall. induction Hall as [|? ? ? ? IH']; unfold completed_sum in *;
      simpl; lia.
  - intros Hi. specialize (IH i Hi). unfold completed_sum in *. simpl. lia.
Qed.

Lemma record_completion_balance (ctx : AppContext) (k : Z) (thread_id : Z)
    (t : Q) :
  books_balance ctx k → 0 <= k < INT_MAX →
  0 <= thread_id < Z.of_nat (length (worker_stats ctx)) →
  ∃ ctx', record_completion ctx thread_id t = Some ctx' ∧
    books_balance ctx' (k + 1) ∧
    length (worker_stats ctx') = length (worker_stats ctx) ∧
    ctx_task_queue ctx' = ctx_task_queue ctx.
Proof.
  intros (Htot & Hsum & Hfail & Hall) Hk Hid. unfold record_completion.
  destruct (Z.leb_spec 0 thread_id); [|lia].
  destruct (lookup_lt_is_Some_2 (worker_stats ctx) (Z.to_nat thread_id)
              ltac:(lia)) as [s Hs].
  rewrite Hs. eexists. split; [done|].
  assert (0 <= tasks_completed s ∧ tasks_failed s = 0) as [Hs0 Hsf].
  { rewrite Forall_lookup in Hall. by apply (Hall _ _ Hs). }
  assert (tasks_completed s <= k) as Hsk.
  { rewrite <- Hsum. apply (completed_sum_bound _ (Z.to_nat thread_id)); [|done].
    eapply Forall_impl; [done|]. by intros ? [? _]. }
  assert (long_wrap (tasks_completed s + 1) = tasks_completed s + 1) as Hw.
  { unfold long_wrap, INT_MAX in *. rewrite Z.mod_small by lia. lia. }
  split; [|split; [simpl; by rewrite length_insert|done]].
  split; simpl.
  { rewrite Htot. apply int_wrap_id. unfold INT_MAX in *. lia. }
  split.
  { rewrite (completed_sum_insert _ _ s) by done. simpl. rewrite Hw. lia. }
  split; [done|].
  apply Forall_insert; [done|]. simpl. rewrite Hw. lia.
Qed.

Lemma initial_books (a n : nat) :
  completed_sum ((λ i : nat, initial_stats (Z.of_nat i)) <$> seq a n) = 0 ∧
  Forall (λ s, 0 <= tasks_completed s ∧ tasks_failed s = 0)
    ((λ i : nat, initial_stats (Z.of_nat i)) <$> seq a n).
Proof.
  revert a. induction n as [|n IH]; intros a; [done|].
  destruct (IH (S a)) as [Hsum Hall]. split; [exact Hsum|].
  by constructor.
Qed.

Lemma record_all_balance (num_threads : Z) (done : list (Z * Q))
    (ctx1 : AppContext) (k : Z) :
  books_balance ctx1 k → 0 <= k →
  length (worker_stats ctx1) = Z.to_nat num_threads →
  Forall (λ c, 0 <= c.1 < num_threads) done →
  k + Z.of_nat (length done) <= INT_MAX →
  ∃ ctx, record_all ctx1 done = Some ctx ∧
    books_balance ctx (k + Z.of_nat (length done)) ∧
    length (worker_stats ctx) = Z.to_nat num_threads ∧
    ctx_task_queue ctx = ctx_task_queue ctx1.
Proof.
  revert ctx1 k. induction done as [|[tid t] done IH];
    intros ctx1 k Hb Hk Hl Hids Hlen.
  - exists ctx1. simpl. by rewrite Z.add_0_r.
  - apply Forall_cons in Hids as [Htid Hids]. simpl in Htid, Hlen.
    destruct (record_completion_balance ctx1 k tid t Hb)
      as (ctx2 & Hrec & Hb2 & Hl2 & Hq2); [lia|lia|].
    destruct (IH ctx2 (k + 1) Hb2) as (ctx & Hall & Hb3 & Hl3 & Hq3);
      [lia|congruence|done|lia|].
    exists ctx. cbn [record_all length]. rewrite Hrec.
    split; [done|]. split; [|split; [done|congruence]].
    replace (k + Z.of_nat (S (length done)))
      with (k + 1 + Z.of_nat (length done)) by lia.
    done.
Qed.

Lemma initialize_books (env : InitEnv) (num_threads : Z) (ctx0 : AppContext) :
  initialize_app_context env num_threads = Some ctx0 →
  books_balance ctx0 0 ∧
  length (worker_stats ctx0) = Z.to_nat num_threads ∧ 0 <= num_threads.
Proof.
  intros Hinit.
  destruct (initialize_app_context_inv env num_threads ctx0 Hinit)
    as (Hn & _ & Hstats & _ & _ & Htot & Hfail).
  split; [|split; [by rewrite Hstats, length_fmap, length_seq|done]].
  unfold books_balance. rewrite Hstats.
  destruct (initial_books 0 (Z.to_nat num_threads)) as [Hsum Hall].
  done.
Qed.

(** X12. Starting from the initialised context, after any sequence of
    completions recorded by workers with valid identities (at most
    [INT_MAX] of them) the per-worker [tasks_completed] counters add up to
    [total_tasks_completed], which is the number of completions; no
    [tasks_failed] counter and not [total_tasks_failed] ever leaves 0, and
    the queue is not touched. *)
Theorem stats_conservation (env : InitEnv) (num_threads : Z)
    (ctx0 : AppContext) (done : list (Z * Q)) :
  initialize_app_context env num_threads = Some ctx0 →
  Forall (λ c, 0 <= c.1 < num_threads) done →
  Z.of_nat (length done) <= INT_MAX →
  ∃ ctx, record_all ctx0 done = Some ctx ∧
    total_tasks_completed ctx = Z.of_nat (length done) ∧
    completed_sum (worker_stats ctx) = Z.of_nat (length done) ∧
    total_tasks_failed ctx = 0 ∧
    Forall (λ s, tasks_failed s = 0) (worker_stats ctx) ∧
    length (worker_stats ctx) = Z.to_nat num_threads ∧
    ctx_task_queue ctx = ctx_task_queue ctx0.
Proof.
  intros Hinit Hids Hlen.
  destruct (initialize_books env num_threads ctx0 Hinit) as (Hb0 & Hl0 & Hn).
  destruct (record_all_balance num_threads done ctx0 0 Hb0)
    as (ctx & Hrec & (Ht & Hs & Hf & Hall) & Hl & Hq); [lia|done|done|lia|].
  exists ctx. simpl in *.
  repeat (split; [done|]). split; [|done].
  eapply Forall_impl; [done|]. by intros ? [_ ?].
Qed.

(** Two workers, three completions. *)
Lemma stats_conservation_witness :
  let env := {| queue_env := env_ok (replicate 1000 7);
                calloc_worker_stats := true; calloc_worker_threads := true;
                stats_lock_init := true; shutdown_lock_init := true;
                shutdown_cond_init := true |} in
  let done : list (Z * Q) := [(0, (1 # 2)%Q); (1, (1 # 4)%Q); (0, (3 # 4)%Q)] in
  ∃ ctx0, initialize_app_context env 2 = Some ctx0 ∧
  ∃ ctx, record_all ctx0 done = Some ctx ∧
    total_tasks_completed ctx = Z.of_nat (length done) ∧
    completed_sum (worker_stats ctx) = Z.of_nat (length done) ∧
    total_tasks_failed ctx = 0 ∧
    Forall (λ s, tasks_failed s = 0) (worker_stats ctx) ∧
    length (worker_stats ctx) = Z.to_nat 2 ∧
    ctx_task_queue ctx = ctx_task_queue ctx0.
Proof.
  intros env done. eexists. split; [reflexivity|].
  apply (stats_conservation env 2 _ done).
  - reflexivity.
  - repeat constructor; simpl; lia.
  - simpl. unfold INT_MAX. lia.
Defined.

Lemma monitor_totals_sum (stats : list WorkerStats) (n i : nat) (c : Z) (t : Q) :
  Forall (λ s, 0 <= tasks_completed s ∧ tasks_failed s = 0) stats →
  (i + n = length stats)%nat →
  0 <= c → c + completed_sum (drop i stats) <= LONG_MAX →
  ∃ time, monitor_totals stats i n (c, 0, t)
          = Some (c + completed_sum (drop i stats), 0, time).
Proof.
  intros Hall. revert i c t. induction n as [|n IH]; intros i c t Hi Hc Hsum.
  - rewrite drop_ge by lia. exists t. simpl. by rewrite Z.add_0_r.
  - destruct (lookup_lt_is_Some_2 stats i ltac:(lia)) as [s Hs].
    cbn [monitor_totals]. rewrite Hs.
    rewrite (drop_S _ _ _ Hs) in Hsum |- *.
    assert (0 <= tasks_completed s ∧ tasks_failed s = 0) as [Hs0 Hsf].
    { rewrite Forall_lookup in Hall. by apply (Hall _ _ Hs). }
    assert (0 <= completed_sum (drop (S i) stats)) as Hrest.
    { assert (Forall (λ s, 0 <= tasks_completed s) (drop (S i) stats)) as Hd.
      { apply Forall_drop. eapply Forall_impl; [done|]. by intros ? [? _]. }
      clear -Hd. induction Hd as [|? ? ? ? IH']; unfold completed_sum in *;
        simpl; lia. }
    change (completed_sum (s :: drop (S i) stats))
      with (tasks_completed s + completed_sum (drop (S i) stats)) in *.
    rewrite Hsf.
    assert (long_wrap (c + tasks_completed s) = c + tasks_completed s) as ->.
    { unfold long_wrap, LONG_MAX in *. rewrite Z.mod_small by lia. lia. }
    change (long_wrap (0 + 0)) with 0.
    destruct (IH (S i) (c + tasks_completed s)
                (t + total_processing_time s)%Q) as [time Htime]; [lia|lia|lia|].
    exists time. rewrite Htime. do 3 f_equal. lia.
Qed.

Lemma monitor_totals_overrun (stats : list WorkerStats) (n i : nat)
    (acc : Z * Z * Q) :
  (i <= length stats < i + n)%nat → monitor_totals stats i n acc = None.
Proof.
  revert i acc. induction n as [|n IH]; intros i acc Hi; [lia|].
  cbn [monitor_totals]. destruct (stats !! i) as [s|] eqn:Hs; [|done].
  apply lookup_lt_Some in Hs. destruct acc as [[c f] t].
  apply IH. lia.
Qed.

(** X13. With [DEFAULT_NUM_THREADS] workers, as [main] starts them, the
    totals that [monitor_thread] adds up under [stats_lock] are the true
    ones: as many completed tasks as were recorded, no failed task.  With
    fewer workers the monitor's loop, which always runs over
    [DEFAULT_NUM_THREADS] slots, reads past the end of [worker_stats]. *)
Theorem monitor_sees_total (env : InitEnv) (num_threads : Z)
    (ctx0 ctx : AppContext) (done : list (Z * Q)) :
  initialize_app_context env num_threads = Some ctx0 →
  Forall (λ c, 0 <= c.1 < num_threads) done →
  Z.of_nat (length done) <= INT_MAX →
  record_all ctx0 done = Some ctx →
  (Z.to_nat num_threads = DEFAULT_NUM_THREADS →
     ∃ time, monitor_snapshot ctx = Some (Z.of_nat (length done), 0, time)) ∧
  ((Z.to_nat num_threads < DEFAULT_NUM_THREADS)%nat →
     monitor_snapshot ctx = None).
Proof.
  intros Hinit Hids Hlen Hrec.
  destruct (initialize_books env num_threads ctx0 Hinit) as (Hb0 & Hl0 & Hn).
  destruct (record_all_balance num_threads done ctx0 0 Hb0)
    as (ctx' & Hrec' & (Ht & Hs & Hf & Hall) & Hl & Hq); [lia|done|done|lia|].
  rewrite Hrec in Hrec'. injection Hrec' as <-.
  unfold monitor_snapshot. split.
  - intros H8.
    destruct (monitor_totals_sum (worker_stats ctx) DEFAULT_NUM_THREADS 0 0 0%Q)
      as [time Htime]; try done.
    + rewrite Hl, H8. done.
    + rewrite drop_0, Hs. unfold LONG_MAX, INT_MAX in *. lia.
    + exists time. rewrite Htime, drop_0, Hs. done.
  - intros Hfew. apply monitor_totals_overrun. lia.
Qed.

Lemma monitor_sees_total_witness :
  let env := {| queue_env := env_ok (replicate 1000 7);
                calloc_worker_stats := true; calloc_worker_threads := true;
                stats_lock_init := true; shutdown_lock_init := true;
                shutdown_cond_init := true |} in
  let done : list (Z * Q) := [(0, (1 # 2)%Q); (7, (1 # 4)%Q); (0, (3 # 4)%Q)] in
  ∃ ctx0 ctx, initialize_app_context env 8 = Some ctx0 ∧
    record_all ctx0 done = Some ctx ∧
    (Z.to_nat 8 = DEFAULT_NUM_THREADS →
       ∃ time, monitor_snapshot ctx = Some (Z.of_nat (length done), 0, time)) ∧
    ((Z.to_nat 8 < DEFAULT_NUM_THREADS)%nat → monitor_snapshot ctx = None).
Proof.
  intros env done. eexists. eexists.
  split; [reflexivity|]. split; [reflexivity|].
  eapply (monitor_sees_total env 8).
  - reflexivity.
  - repeat constructor; simpl; lia.
  - simpl. unfold INT_MAX. lia.
  - reflexivity.
Defined.

Lemma max_after_samples (ts : list Q) (stats : WorkerStats) :
  let m := max_processing_time (foldl update_stats stats ts) in
  (max_processing_time stats <= m)%Q ∧
  (∀ t, t ∈ ts → (t <= m)%Q) ∧
  (m = max_processing_time stats ∨ m ∈ ts).
Proof.
  revert stats. induction ts as [|t ts IH]; intros stats; simpl.
  - split; [apply Qle_refl|]. split; [|by left].
    intros t Ht. by apply elem_of_nil in Ht.
  - destruct (IH (update_stats stats t)) as (Hle & Hub & Hin).
    assert (max_processing_time (update_stats stats t)
            = Qmax (max_processing_time stats) t) as Hstep
      by apply update_max.
    rewrite Hstep in Hle, Hin.
    split; [eapply Qle_trans; [apply Q.le_max_l|exact Hle]|].
    split.
    + intros t' Ht'. apply elem_of_cons in Ht' as [->|Ht'].
      * eapply Qle_trans; [apply Q.le_max_r|exact Hle].
      * by apply Hub.
    + destruct Hin as [Hm|Hm]; [|right; by apply elem_of_cons; right].
      rewrite Hm. unfold Qmax, GenericMinMax.gmax.
      destruct (max_processing_time stats ?= t)%Q; [by left| |by left].
      right. apply elem_of_cons. by left.
Qed.

Lemma counters_after_samples (ts : list Q) (stats : WorkerStats) :
  0 <= tasks_completed stats →
  tasks_completed stats + Z.of_nat (length ts) <= LONG_MAX →
  tasks_completed (foldl update_stats stats ts)
    = tasks_completed stats + Z.of_nat (length ts) ∧
  tasks_failed (foldl update_stats stats ts) = tasks_failed stats ∧
  thread_id (foldl update_stats stats ts) = thread_id stats.
Proof.
  revert stats. induction ts as [|t ts IH]; intros stats H0 Hmax.
  - simpl. by rewrite Z.add_0_r.
  - cbn [foldl length] in *.
    assert (tasks_completed (update_stats stats t) = tasks_completed stats + 1)
      as Hstep.
    { simpl. unfold long_wrap, LONG_MAX in *. rewrite Z.mod_small by lia. lia. }
    destruct (IH (update_stats stats t)) as (Hc & Hf & Hid); [lia|lia|].
    rewrite Hc, Hf, Hid, Hstep. simpl. split; [lia|done].
Qed.

(** X14. After any samples a worker's slot has counted every one of them,
    still carries the worker's identity and no failure, and its
    [max_processing_time] is at least every sample and is itself one of
    the samples or the initial 0. *)
Theorem stats_after_samples (i : Z) (ts : list Q) :
  Z.of_nat (length ts) <= LONG_MAX →
  tasks_completed (stats_after i ts) = Z.of_nat (length ts) ∧
  tasks_failed (stats_after i ts) = 0 ∧
  thread_id (stats_after i ts) = i ∧
  (∀ t, t ∈ ts → (t <= max_processing_time (stats_after i ts))%Q) ∧
  (max_processing_time (stats_after i ts) = 0%Q ∨
   max_processing_time (stats_after i ts) ∈ ts).
Proof.
  intros Hlen. unfold stats_after.
  destruct (counters_after_samples ts (initial_stats i)) as (Hc & Hf & Hid);
    [done|simpl; lia|].
  destruct (max_after_samples ts (initial_stats i)) as (_ & Hub & Hin).
  rewrite Hc, Hf, Hid. simpl. done.
Qed.

Lemma stats_after_samples_witness :
  let ts := [(1 # 2)%Q; (-1)%Q; (3 # 4)%Q] in
  tasks_completed (stats_after 5 ts) = Z.of_nat (length ts) ∧
  tasks_failed (stats_after 5 ts) = 0 ∧
  thread_id (stats_after 5 ts) = 5 ∧
  (∀ t, t ∈ ts → (t <= max_processing_time (stats_after 5 ts))%Q) ∧
  (max_processing_time (stats_after 5 ts) = 0%Q ∨
   max_processing_time (stats_after 5 ts) ∈ ts).
Proof.
  intros ts. apply (stats_after_samples 5 ts).
  simpl. unfold LONG_MAX. lia.
Defined.

(* ================================================================== *)
(** * Time differences *)

Lemma long_wrap_id (z : Z) : - 2 ^ 63 <= z <= LONG_MAX → long_wrap z = z.
Proof.
  unfold long_wrap, LONG_MAX. intros Hz. rewrite Z.mod_small by lia. lia.
Qed.

Lemma get_time_diff_exact (a b : timeval) :
  timeval_ok a → timeval_ok b →
  (get_time_diff a b
   == inject_Z ((tv_sec b - tv_sec a) * 1000000 + (tv_usec b - tv_usec a))
      / 1000000)%Q.
Proof.
  intros [Has Hau] [Hbs Hbu]. unfold get_time_diff.
  rewrite !long_wrap_id by (unfold LONG_MAX in *; lia).
  rewrite inject_Z_plus, inject_Z_mult. field.
Qed.

(** X15. For two times as [gettimeofday] returns them, [get_time_diff] is
    positive exactly when the first is earlier than the second, negative
    exactly when it is later, and 0 exactly when both are the same
    microsecond: a task that starts and ends within one microsecond is
    measured as 0. *)
Theorem get_time_diff_sign (a b : timeval) :
  timeval_ok a → timeval_ok b →
  ((0 < get_time_diff a b)%Q ↔ earlier a b) ∧
  ((get_time_diff a b < 0)%Q ↔ earlier b a) ∧
  ((get_time_diff a b == 0)%Q ↔ tv_sec a = tv_sec b ∧ tv_usec a = tv_usec b).
Proof.
  intros Ha Hb. pose proof (get_time_diff_exact a b Ha Hb) as Hd.
  destruct Ha as [Has Hau], Hb as [Hbs Hbu]. unfold earlier.
  set (d := (tv_sec b - tv_sec a) * 1000000 + (tv_usec b - tv_usec a)) in *.
  assert (Hpos : (0 < get_time_diff a b)%Q ↔ 0 < d).
  { rewrite Hd. unfold Qlt, Qdiv, Qmult, Qinv, inject_Z. simpl. lia. }
  assert (Hneg : (get_time_diff a b < 0)%Q ↔ d < 0).
  { rewrite Hd. unfold Qlt, Qdiv, Qmult, Qinv, inject_Z. simpl. lia. }
  assert (Hzero : (get_time_diff a b == 0)%Q ↔ d = 0).
  { rewrite Hd. unfold Qeq, Qdiv, Qmult, Qinv, inject_Z. simpl. lia. }
  rewrite Hpos, Hneg, Hzero. unfold d. lia.
Qed.

Lemma get_time_diff_sign_witness :
  let a := {| tv_sec := 100; tv_usec := 999999 |} in
  let b := {| tv_sec := 101; tv_usec := 3 |} in
  ((0 < get_time_diff a b)%Q ↔ earlier a b) ∧
  ((get_time_diff a b < 0)%Q ↔ earlier b a) ∧
  ((get_time_diff a b == 0)%Q ↔ tv_sec a = tv_sec b ∧ tv_usec a = tv_usec b).
Proof.
  intros a b. apply (get_time_diff_sign a b).
  - split; simpl; unfold LONG_MAX; lia.
  - split; simpl; unfold LONG_MAX; lia.
Defined.

(* ================================================================== *)
(** * The worker loop *)

Lemma worker_loop_busy (thread_id : Z) (l : list ptr) (busy : list worker_env)
    (ctx : AppContext) (stats : WorkerStats) :
  queue_wf (ctx_task_queue ctx) → holds (ctx_task_queue ctx) l →
  Forall (λ p, p ≠ NULL) l →
  0 <= thread_id →
  worker_stats ctx !! Z.to_nat thread_id = Some stats →
  (length busy <= length l)%nat →
  0 <= total_tasks_completed ctx →
  total_tasks_completed ctx + Z.of_nat (length busy) <= INT_MAX →
  Forall (λ e, is_set (at_loop_head e) = false) busy →
  ∃ ctx', queue_wf (ctx_task_queue ctx') ∧
    holds (ctx_task_queue ctx') (drop (length busy) l) ∧
    worker_stats ctx'
      = <[Z.to_nat thread_id :=
            foldl update_stats stats (measured_time <$> busy)]>
          (worker_stats ctx) ∧
    total_tasks_completed ctx'
      = total_tasks_completed ctx + Z.of_nat (length busy) ∧
    ∀ rest, worker_loop thread_id (busy ++ rest) ctx
            = let '(how, ctx'', freed) := worker_loop thread_id rest ctx' in
              (how, ctx'', take (length busy) l ++ freed).
Proof.
  revert l ctx stats. induction busy as [|e busy IH];
    intros l ctx stats Hwf Hq Hnn Htid Hstats Hlen Htot Hmax Hclear.
  - exists ctx. simpl. rewrite Z.add_0_r, list_insert_id by done.
    repeat (split; [done|]). intros rest.
    by destruct (worker_loop thread_id rest ctx) as [[how ctx''] freed].
  - destruct l as [|x l]; [simpl in Hlen; lia|].
    apply Forall_cons in Hnn as [Hx Hnn].
    apply Forall_cons in Hclear as [He Hclear].
    cbn [length] in Hlen, Hmax.
    assert (0 < count (ctx_task_queue ctx)) as Hpos.
    { destruct Hq as [-> _]. simpl. lia. }
    assert (dequeue_loop (in_dequeue e) (ctx_task_queue ctx)
            = Return x (after_dequeue (ctx_task_queue ctx)) (Some not_full))
      as Hdeq.
    { unfold dequeue_loop, queue_is_empty.
      destruct (Z.eqb_spec (count (ctx_task_queue ctx)) 0); [lia|].
      by apply (dequeue_remove_eq _ x l). }
    set (ctx1 := with_queue ctx (after_dequeue (ctx_task_queue ctx))).
    assert (∃ ctx2, record_completion ctx1 thread_id (measured_time e) = Some ctx2
              ∧ ctx_task_queue ctx2 = after_dequeue (ctx_task_queue ctx)
              ∧ worker_stats ctx2
                = <[Z.to_nat thread_id := update_stats stats (measured_time e)]>
                    (worker_stats ctx)
              ∧ total_tasks_completed ctx2 = total_tasks_completed ctx + 1)
      as (ctx2 & Hrec & Hq2 & Hs2 & Ht2).
    { unfold record_completion. destruct (Z.leb_spec 0 thread_id); [|lia].
      cbn [ctx1 with_queue worker_stats]. rewrite Hstats.
      eexists. split; [done|]. simpl.
      split; [done|]. split; [done|].
      apply int_wrap_id. unfold INT_MAX in *. lia. }
    pose proof (lookup_lt_Some _ _ _ Hstats) as Hin.
    destruct (IH l ctx2 (update_stats stats (measured_time e)))
      as (ctx' & Hwf' & Hq' & Hs' & Ht' & Hloop).
    { rewrite Hq2. by apply after_dequeue_wf. }
    { rewrite Hq2. by apply (after_dequeue_holds _ x). }
    { done. }
    { done. }
    { rewrite Hs2. by apply list_lookup_insert_eq. }
    { lia. }
    { lia. }
    { lia. }
    { done. }
    exists ctx'. cbn [length drop take fmap list_fmap foldl].
    split; [done|]. split; [done|].
    split; [by rewrite Hs', Hs2, list_insert_insert_eq|].
    split; [lia|]. intros rest.
    cbn [app worker_loop]. rewrite He, Hdeq.
    destruct (Z.eqb_spec x NULL) as [|_]; [done|].
    fold ctx1. rewrite Hrec, Hloop.
    by destruct (worker_loop thread_id rest ctx') as [[how ctx''] freed].
Qed.

(** X16. A worker that finds the flag clear at the head of [k] iterations
    and set at the next one takes the [k] oldest tasks out of the queue,
    frees each of them in order, records each with its measured time in
    its own statistics slot and in no other, counts them in
    [total_tasks_completed], and then leaves its loop: the tasks behind
    them stay in the queue unprocessed. *)
Theorem worker_processes_until_shutdown (thread_id : Z)
    (busy : list worker_env) (stop : worker_env) (rest : list worker_env)
    (ctx : AppContext) (stats : WorkerStats) :
  queue_wf (ctx_task_queue ctx) →
  Forall (λ p, p ≠ NULL) (live_slots (ctx_task_queue ctx)) →
  0 <= thread_id →
  worker_stats ctx !! Z.to_nat thread_id = Some stats →
  (length busy <= length (live_slots (ctx_task_queue ctx)))%nat →
  0 <= total_tasks_completed ctx →
  total_tasks_completed ctx + Z.of_nat (length busy) <= INT_MAX →
  Forall (λ e, is_set (at_loop_head e) = false) busy →
  is_set (at_loop_head stop) = true →
  ∃ ctx', worker_loop thread_id (busy ++ stop :: rest) ctx
          = (Worker_exits, ctx',
             take (length busy) (live_slots (ctx_task_queue ctx))) ∧
    live_slots (ctx_task_queue ctx')
      = drop (length busy) (live_slots (ctx_task_queue ctx)) ∧
    worker_stats ctx'
      = <[Z.to_nat thread_id :=
            foldl update_stats stats (measured_time <$> busy)]>
          (worker_stats ctx) ∧
    total_tasks_completed ctx'
      = total_tasks_completed ctx + Z.of_nat (length busy).
Proof.
  intros Hwf Hnn Htid Hstats Hlen Htot Hmax Hclear Hstop.
  destruct (worker_loop_busy thread_id _ busy ctx stats Hwf (wf_holds _ Hwf))
    as (ctx' & Hwf' & Hq' & Hs' & Ht' & Hloop); try done.
  exists ctx'. rewrite Hloop. cbn [worker_loop]. rewrite Hstop.
  rewrite app_nil_r. split; [done|]. split; [|done].
  by apply holds_live_slots.
Qed.

Lemma worker_processes_witness :
  let ctx := {| ctx_task_queue := mkQueue [23; 21; 22] 1 1 3 3;
                worker_stats := [initial_stats 0; initial_stats 1];
                worker_threads := [11; 12]; active_workers := 2;
                total_tasks_completed := 0; total_tasks_failed := 0 |} in
  let busy := [{| at_loop_head := 0; in_dequeue := 0; after_empty := 0;
                  measured_time := 1 # 2 |};
               {| at_loop_head := 0; in_dequeue := 1; after_empty := 1;
                  measured_time := 1 # 4 |}] in
  let stop := {| at_loop_head := 1; in_dequeue := 1; after_empty := 1;
                 measured_time := 0 |} in
  ∃ ctx', worker_loop 1 (busy ++ stop :: []) ctx
          = (Worker_exits, ctx',
             take (length busy) (live_slots (ctx_task_queue ctx))) ∧
    live_slots (ctx_task_queue ctx')
      = drop (length busy) (live_slots (ctx_task_queue ctx)) ∧
    worker_stats ctx'
      = <[Z.to_nat 1 :=
            foldl update_stats (initial_stats 1) (measured_time <$> busy)]>
          (worker_stats ctx) ∧
    total_tasks_completed ctx'
      = total_tasks_completed ctx + Z.of_nat (length busy).
Proof.
  intros ctx busy stop.
  apply (worker_processes_until_shutdown 1 busy stop [] ctx (initial_stats 1)).
  - split; simpl; first [reflexivity | unfold INT_MAX; lia].
  - repeat constructor; discriminate.
  - lia.
  - reflexivity.
  - simpl. lia.
  - simpl. lia.
  - simpl. unfold INT_MAX. lia.
  - repeat constructor.
  - reflexivity.
Defined.

(** X17. A worker that never sees the flag set takes every task out of
    the queue, oldest first, frees each, records each with its measured
    time in its own statistics slot and in no other, counts them in
    [total_tasks_completed], and then waits in [queue_dequeue] on the
    empty queue. *)
Theorem worker_drains_then_waits (thread_id : Z) (envs : list worker_env)
    (ctx : AppContext) (stats : WorkerStats) :
  queue_wf (ctx_task_queue ctx) →
  Forall (λ p, p ≠ NULL) (live_slots (ctx_task_queue ctx)) →
  0 <= thread_id →
  worker_stats ctx !! Z.to_nat thread_id = Some stats →
  (length (live_slots (ctx_task_queue ctx)) < length envs)%nat →
  0 <= total_tasks_completed ctx →
  total_tasks_completed ctx + count (ctx_task_queue ctx) <= INT_MAX →
  Forall (λ e, is_set (at_loop_head e) = false ∧ is_set (in_dequeue e) = false)
    envs →
  ∃ ctx', worker_loop thread_id envs ctx
          = (Worker_waits, ctx', live_slots (ctx_task_queue ctx)) ∧
    count (ctx_task_queue ctx') = 0 ∧
    worker_stats ctx'
      = <[Z.to_nat thread_id :=
            foldl update_stats stats
              (measured_time
                 <$> take (length (live_slots (ctx_task_queue ctx))) envs)]>
          (worker_stats ctx) ∧
    total_tasks_completed ctx'
      = total_tasks_completed ctx + count (ctx_task_queue ctx).
Proof.
  intros Hwf Hnn Htid Hstats Hlen Htot Hmax Hclear.
  pose proof (wf_holds _ Hwf) as Hq.
  set (l := live_slots (ctx_task_queue ctx)) in *.
  assert (count (ctx_task_queue ctx) = Z.of_nat (length l)) as Hcnt
    by (by destruct Hq).
  replace (worker_loop thread_id envs ctx)
    with (worker_loop thread_id
            (take (length l) envs ++ drop (length l) envs) ctx)
    by (by rewrite take_drop).
  assert (length (take (length l) envs) = length l) as Hbusy.
  { rewrite length_take. lia. }
  destruct (drop (length l) envs) as [|e rest] eqn:Hdrop.
  { apply (f_equal length) in Hdrop. rewrite length_drop in Hdrop.
    simpl in Hdrop. lia. }
  assert (is_set (at_loop_head e) = false ∧ is_set (in_dequeue e) = false)
    as [He1 He2].
  { rewrite Forall_forall in Hclear. apply Hclear.
    apply list_elem_of_In. rewrite <- (take_drop (length l) envs), Hdrop.
    apply in_or_app. right. by left. }
  destruct (worker_loop_busy thread_id l (take (length l) envs) ctx stats Hwf Hq)
    as (ctx' & Hwf' & Hq' & Hs' & Ht' & Hloop); try done; try lia.
  { apply Forall_take. eapply Forall_impl; [done|]. by intros ? [? _]. }
  rewrite Hbusy in *. rewrite drop_all in Hq'. rewrite firstn_all in Hloop.
  destruct Hq' as [Hc0 _]. simpl in Hc0.
  exists ctx'. rewrite Hloop. cbn [worker_loop]. rewrite He1.
  unfold dequeue_loop, queue_is_empty. rewrite Hc0, He2. simpl.
  rewrite app_nil_r. split; [done|]. split; [done|]. split; [done|lia].
Qed.

Lemma worker_drains_witness :
  let ctx := {| ctx_task_queue := mkQueue [23; 21; 22] 1 1 3 3;
                worker_stats := [initial_stats 0; initial_stats 1];
                worker_threads := [11; 12]; active_workers := 2;
                total_tasks_completed := 0; total_tasks_failed := 0 |} in
  let envs := replicate 4 {| at_loop_head := 0; in_dequeue := 0;
                             after_empty := 0; measured_time := 1 # 2 |} in
  ∃ ctx', worker_loop 0 envs ctx
          = (Worker_waits, ctx', live_slots (ctx_task_queue ctx)) ∧
    count (ctx_task_queue ctx') = 0 ∧
    worker_stats ctx'
      = <[Z.to_nat 0 :=
            foldl update_stats (initial_stats 0)
              (measured_time
                 <$> take (length (live_slots (ctx_task_queue ctx))) envs)]>
          (worker_stats ctx) ∧
    total_tasks_completed ctx'
      = total_tasks_completed ctx + count (ctx_task_queue ctx).
Proof.
  intros ctx envs.
  apply (worker_drains_then_waits 0 envs ctx (initial_stats 0)).
  - split; simpl; first [reflexivity | unfold INT_MAX; lia].
  - repeat constructor; discriminate.
  - lia.
  - reflexivity.
  - simpl. lia.
  - simpl. lia.
  - simpl. unfold INT_MAX. lia.
  - repeat constructor.
Defined.

(* ================================================================== *)
(** * The task generator *)

Lemma enqueue_resume_full (q : ThreadSafeQueue) (p : ptr) (wakeups : list Z) :
  queue_is_full q = true →
  enqueue_resume q p wakeups = Blocked ∨
  enqueue_resume q p wakeups = Done (-1) q.
Proof.
  intros Hfull. induction wakeups as [|flag wakeups IH]; simpl; [by left|].
  unfold enqueue_woken. destruct (is_set flag); [by right|].
  by rewrite Hfull.
Qed.

Lemma queue_enqueue_cases (q : ThreadSafeQueue) (p : ptr) (wakeups : list Z) :
  queue_wf q →
  queue_enqueue q p wakeups = Blocked ∨
  queue_enqueue q p wakeups = Done (-1) q ∨
  (count q < capacity q ∧
   queue_enqueue q p wakeups = Done 0 (after_enqueue q p)).
Proof.
  intros Hwf. unfold queue_enqueue, enqueue_entry.
  destruct (queue_is_full q) eqn:Hfull.
  - destruct (enqueue_resume_full q p wakeups Hfull) as [->| ->]; auto.
  - unfold queue_is_full in Hfull. apply Z.eqb_neq in Hfull.
    assert (count q < capacity q) by (destruct Hwf; lia).
    rewrite enqueue_insert_eq by done. auto.
Qed.

Lemma allocated_after_sleep (b : bool) (evs : list generator_event) :
  allocated ((if b then [G_usleep] else []) ++ evs) = allocated evs ∧
  handed_over ((if b then [G_usleep] else []) ++ evs) = handed_over evs ∧
  freed ((if b then [G_usleep] else []) ++ evs) = freed evs.
Proof. by destruct b. Qed.

(** X18. Whatever the flag, [malloc], [rand()] and the wake-ups do, the
    generator on a well-formed queue never runs into undefined behaviour
    and accounts for every task it allocates: the tasks whose enqueue
    returned 0 are in the queue behind the older items, in order of
    creation; when the loop is left their number is the number reported,
    at most [DEFAULT_NUM_TASKS], and at most one more task was allocated,
    the one whose enqueue was cancelled, which was freed; while the
    generator waits in [queue_enqueue], the one task in hand is neither in
    the queue nor freed. *)
Theorem generator_accounts_for_tasks (start : Z) (envs : list generator_env)
    (q : ThreadSafeQueue) :
  queue_wf q → 0 <= start <= DEFAULT_NUM_TASKS →
  ∃ how q' evs, task_generator start envs q = (how, q', evs) ∧
    queue_wf q' ∧
    live_slots q' = live_slots q ++ handed_over evs ∧
    match how with
    | Generator_done n =>
        n = start + Z.of_nat (length (handed_over evs)) ∧
        n <= DEFAULT_NUM_TASKS ∧
        (allocated evs).*1 = handed_over evs ++ freed evs ∧
        (length (freed evs) <= 1)%nat
    | Generator_waits =>
        ∃ p, (allocated evs).*1 = handed_over evs ++ [p] ∧ freed evs = []
    | Generator_running =>
        (allocated evs).*1 = handed_over evs ∧ freed evs = []
    | Generator_fault => False
    end.
Proof.
  revert start q. induction envs as [|e envs IH]; intros start q Hwf Hstart.
  - exists Generator_running, q, []. simpl. by rewrite app_nil_r.
  - cbn [task_generator].
    destruct (is_set (g_at_loop_head e) || negb (start <? DEFAULT_NUM_TASKS))
      eqn:Hcond.
    { exists (Generator_done start), q, []. simpl. rewrite app_nil_r.
      do 3 (split; [done|]). split; [lia|]. split; [lia|]. split; [done|lia]. }
    apply orb_false_iff in Hcond as [_ Hlt].
    apply negb_false_iff, Z.ltb_lt in Hlt.
    destruct (g_malloc e) as [p|].
    2:{ exists (Generator_done start), q, []. simpl. rewrite app_nil_r.
        do 3 (split; [done|]). split; [lia|]. split; [lia|]. split; [done|lia]. }
    destruct (queue_enqueue_cases q p (g_wakeups e) Hwf)
      as [-> | [-> | [Hroom ->]]].
    + exists Generator_waits, q, [G_malloc p (new_task start e)]. simpl.
      rewrite app_nil_r. do 3 (split; [done|]). by exists p.
    + exists (Generator_done start), q,
        [G_malloc p (new_task start e); G_free p].
      simpl. rewrite app_nil_r.
      do 3 (split; [done|]). split; [lia|]. split; [lia|]. split; [done|lia].
    + change (0 =? -1) with false. cbv iota.
      assert (int_wrap (start + 1) = start + 1) as ->.
      { apply int_wrap_id. unfold DEFAULT_NUM_TASKS, INT_MAX in *. lia. }
      destruct (IH (start + 1) (after_enqueue q p))
        as (how & q' & evs & -> & Hwf' & Hlive & Hhow);
        [by apply after_enqueue_wf|lia|].
      eexists how, q', _. split; [done|]. split; [done|].
      destruct (allocated_after_sleep (Z.rem (start + 1) 100 =? 0) evs)
        as (Ha & Hh & Hf).
      cbn [allocated handed_over freed]. rewrite Ha, Hh, Hf.
      split.
      { rewrite Hlive.
        rewrite (holds_live_slots (after_enqueue q p) (live_slots q ++ [p])).
        - by rewrite <- app_assoc.
        - apply after_enqueue_holds; [done|done|by apply wf_holds]. }
      destruct how as [n| | |].
      * destruct Hhow as (Hn & Hmax & Hal & Hfr).
        cbn [length fmap list_fmap fst app]. rewrite Hal.
        split; [lia|]. split; [done|]. split; [done|done].
      * destruct Hhow as (p' & Hal & Hfr). exists p'.
        cbn [fmap list_fmap fst app]. by rewrite Hal.
      * done.
      * destruct Hhow as [Hal Hfr]. cbn [fmap list_fmap fst app].
        by rewrite Hal.
Qed.

(** The generator alone on an empty capacity-2 queue: two tasks go in,
    the third call is cancelled at its second wake-up. *)
Lemma generator_accounts_witness :
  let env p wakeups :=
    {| g_at_loop_head := 0; g_malloc := Some p;
       g_garbage := {| tv_sec := 7; tv_usec := 7 |}; g_rand := 1804289383;
       g_now := {| tv_sec := 100; tv_usec := 5 |}; g_wakeups := wakeups |} in
  let q := mkQueue [0; 0] 0 0 0 2 in
  let envs := [env 4096 []; env 4160 []; env 4224 [0; 1]; env 4288 []] in
  ∃ how q' evs, task_generator 0 envs q = (how, q', evs) ∧
    queue_wf q' ∧
    live_slots q' = live_slots q ++ handed_over evs ∧
    match how with
    | Generator_done n =>
        n = 0 + Z.of_nat (length (handed_over evs)) ∧
        n <= DEFAULT_NUM_TASKS ∧
        (allocated evs).*1 = handed_over evs ++ freed evs ∧
        (length (freed evs) <= 1)%nat
    | Generator_waits =>
        ∃ p, (allocated evs).*1 = handed_over evs ++ [p] ∧ freed evs = []
    | Generator_running =>
        (allocated evs).*1 = handed_over evs ∧ freed evs = []
    | Generator_fault => False
    end.
Proof.
  intros env q envs. apply (generator_accounts_for_tasks 0 envs q).
  - split; simpl; first [reflexivity | unfold INT_MAX; lia].
  - unfold DEFAULT_NUM_TASKS. lia.
Defined.

(** X19. The tasks that the generator allocates are numbered
    consecutively from the first [task_id] on, and each has a priority
    between 1 and 10, whatever non-negative values [rand()] returns. *)
Theorem generator_task_fields (start : Z) (envs : list generator_env)
    (q : ThreadSafeQueue) (i : nat) (p : ptr) (task : Task) :
  0 <= start →
  Forall (λ e, 0 <= g_rand e) envs →
  allocated (task_generator start envs q).2 !! i = Some (p, task) →
  task_id task = start + Z.of_nat i ∧ 1 <= priority task <= 10.
Proof.
  revert start q i. induction envs as [|e envs IH];
    intros start q i Hstart Hrand; [done|].
  apply Forall_cons in Hrand as [Hr Hrand].
  cbn [task_generator].
  destruct (is_set (g_at_loop_head e) || negb (start <? DEFAULT_NUM_TASKS))
    eqn:Hcond; [done|].
  apply orb_false_iff in Hcond as [_ Hlt].
  apply negb_false_iff, Z.ltb_lt in Hlt.
  destruct (g_malloc e) as [p0|]; [|done].
  assert (Hnew : task_id (new_task start e) = start ∧
                 1 <= priority (new_task start e) <= 10).
  { split; [done|]. simpl.
    pose proof (Z.rem_bound_pos (g_rand e) 10 Hr ltac:(lia)).
    rewrite (int_wrap_id (Z.rem (g_rand e) 10)) by (unfold INT_MAX; lia).
    rewrite int_wrap_id by (unfold INT_MAX; lia). lia. }
  destruct (queue_enqueue q p0 (g_wakeups e)) as [|r q'|].
  - destruct i as [|i]; [|done]. simpl. intros [= <- <-].
    destruct Hnew as [-> ?]. split; [lia|done].
  - destruct (r =? -1).
    + destruct i as [|i]; [|done]. simpl. intros [= <- <-].
      destruct Hnew as [-> ?]. split; [lia|done].
    + assert (int_wrap (start + 1) = start + 1) as ->.
      { apply int_wrap_id. unfold DEFAULT_NUM_TASKS, INT_MAX in *. lia. }
      specialize (IH (start + 1) q').
      destruct (task_generator (start + 1) envs q') as [[how q''] evs].
      cbn [snd allocated].
      destruct (allocated_after_sleep (Z.rem (start + 1) 100 =? 0) evs)
        as (-> & _ & _).
      destruct i as [|i].
      * simpl. intros [= <- <-]. destruct Hnew as [-> ?]. split; [lia|done].
      * simpl. intros Hi. destruct (IH i) as [-> ?]; [lia|done|done|].
        split; [lia|done].
  - destruct i as [|i]; [|done]. simpl. intros [= <- <-].
    destruct Hnew as [-> ?]. split; [lia|done].
Qed.

Lemma generator_task_fields_witness :
  let env p r :=
    {| g_at_loop_head := 0; g_malloc := Some p;
       g_garbage := {| tv_sec := 7; tv_usec := 7 |}; g_rand := r;
       g_now := {| tv_sec := 100; tv_usec := 5 |}; g_wakeups := [] |} in
  let q := mkQueue [0; 0; 0] 0 0 0 3 in
  let envs := [env 4096 1804289383; env 4160 846930886; env 4224 9] in
  let task := {| task_id := 2; priority := 10;
                 start_time := {| tv_sec := 100; tv_usec := 5 |};
                 end_time := {| tv_sec := 7; tv_usec := 7 |} |} in
  task_id task = 0 + Z.of_nat 2 ∧ 1 <= priority task <= 10.
Proof.
  intros env q envs task.
  apply (generator_task_fields 0 envs q 2 4224 task).
  - lia.
  - repeat constructor; simpl; lia.
  - reflexivity.
Defined.

(* ================================================================== *)
(** * Worker creation and identity *)

Lemma create_workers_spec (ctx_addr : ptr) (handles ready old : list pthread_t) :
  length old = length handles →
  (length ready + length handles <= MAX_THREADS)%nat →
  create_workers ctx_addr (Some <$> handles) (Z.of_nat (length ready))
    (length handles) (ready ++ old)
  = Some (ready ++ handles,
          (λ h, {| started_handle := h; started_arg := ctx_addr |}) <$> handles).
Proof.
  revert ready old. induction handles as [|h handles IH];
    intros ready old Hlen Hmax.
  - destruct old; [|done]. done.
  - destruct old as [|o old]; [done|]. simpl in Hlen, Hmax.
    cbn [create_workers fmap list_fmap length].
    unfold ptr, pthread_t in *.
    rewrite array_store_in by (rewrite length_app; simpl; lia).
    rewrite Nat2Z.id, insert_app_r_alt, Nat.sub_diag by done. simpl.
    rewrite int_wrap_id by (unfold MAX_THREADS, INT_MAX in *; lia).
    replace (Z.of_nat (length ready) + 1)
      with (Z.of_nat (length (ready ++ [h])))
      by (rewrite length_app; simpl; lia).
    unfold ptr in *. rewrite (cons_middle h ready old), app_assoc.
    rewrite (IH (ready ++ [h]) old);
      [|lia|rewrite length_app; simpl; lia].
    by rewrite <- app_assoc.
Qed.

(** C7, as the code has it. [main] starts every worker with the same
    argument, the address of the shared context, and stores its handle in
    [worker_threads]; the worker finds its identity at run time: with
    [stats_lock] held it reads [worker_threads] from index 0 on and takes
    the first index below [MAX_THREADS] whose handle is [pthread_self()];
    the statistics of a task that it completes go into the [WorkerStats]
    slot at that index and into no other. *)
Theorem worker_identity_selects_slot (ctx_addr : ptr)
    (handles : list pthread_t) (ctx : AppContext) (i : nat) (self : pthread_t)
    (stats : WorkerStats) (e : worker_env) (task : ptr) (queued : list ptr) :
  length (worker_threads ctx) = length handles →
  (length handles <= MAX_THREADS)%nat →
  handles !! i = Some self →
  (∀ j, (j < i)%nat → handles !! j ≠ Some self) →
  worker_stats ctx !! i = Some stats →
  queue_wf (ctx_task_queue ctx) →
  live_slots (ctx_task_queue ctx) = task :: queued →
  task ≠ NULL →
  is_set (at_loop_head e) = false →
  let trace :=
    lock_stats
      :: ((λ j : nat, read_worker_threads (Z.of_nat j)) <$> seq 0 (S i))
      ++ [unlock_stats] in
  create_workers ctx_addr (Some <$> handles) 0 (length handles)
    (worker_threads ctx)
  = Some (handles,
          (λ h, {| started_handle := h; started_arg := ctx_addr |}) <$> handles) ∧
  worker_identify handles self = (trace, Found (Z.of_nat i)) ∧
  ∃ ctx', worker_thread self [e] (with_threads ctx handles)
          = (trace, (Worker_running, ctx', [task])) ∧
    worker_stats ctx'
    = <[i := update_stats stats (measured_time e)]> (worker_stats ctx) ∧
    live_slots (ctx_task_queue ctx') = queued.
Proof.
  intros Hlen Hmax Hself Hfirst Hstats Hwf Hlive Htask He trace.
  assert (worker_identify handles self = (trace, Found (Z.of_nat i))) as Hid.
  { unfold worker_identify. change 0 with (Z.of_nat 0).
    pose proof (lookup_lt_Some _ _ _ Hself).
    rewrite (scan_finds_first handles self i 0 MAX_THREADS); [done|lia|done|].
    intros j Hj. apply Hfirst. lia. }
  split.
  { apply (create_workers_spec ctx_addr handles [] (worker_threads ctx));
      [done|simpl; lia]. }
  split; [done|].
  pose proof (wf_holds _ Hwf) as Hq. rewrite Hlive in Hq.
  assert (dequeue_loop (in_dequeue e) (ctx_task_queue ctx)
          = Return task (after_dequeue (ctx_task_queue ctx)) (Some not_full))
    as Hdeq.
  { unfold dequeue_loop, queue_is_empty.
    assert (0 < count (ctx_task_queue ctx)).
    { destruct Hq as [-> _]. simpl. lia. }
    destruct (Z.eqb_spec (count (ctx_task_queue ctx)) 0); [lia|].
    by apply (dequeue_remove_eq _ task queued). }
  eexists. unfold worker_thread.
  cbn [with_threads worker_threads]. rewrite Hid.
  cbn [worker_loop ctx_task_queue with_threads]. rewrite He, Hdeq.
  destruct (Z.eqb_spec task NULL) as [|_]; [done|].
  unfold record_completion.
  destruct (Z.leb_spec 0 (Z.of_nat i)); [|lia].
  cbn [with_queue with_threads worker_stats]. rewrite Nat2Z.id, Hstats.
  split; [done|]. cbn [worker_stats ctx_task_queue]. split; [done|].
  apply holds_live_slots. by apply (after_dequeue_holds _ task).
Qed.

(** Three workers; the second one completes the oldest of two tasks. *)
Lemma worker_identity_selects_witness :
  let ctx := {| ctx_task_queue := mkQueue [21; 22] 0 0 2 2;
                worker_stats := [initial_stats 0; initial_stats 1;
                                 initial_stats 2];
                worker_threads := [0; 0; 0]; active_workers := 3;
                total_tasks_completed := 0; total_tasks_failed := 0 |} in
  let e := {| at_loop_head := 0; in_dequeue := 0; after_empty := 0;
              measured_time := 1 # 2 |} in
  let trace := [lock_stats; read_worker_threads 0; read_worker_threads 1;
                unlock_stats] in
  create_workers 4096 (Some <$> [11; 12; 13]) 0 3 [0; 0; 0]
  = Some ([11; 12; 13],
          (λ h, {| started_handle := h; started_arg := 4096 |})
            <$> [11; 12; 13]) ∧
  worker_identify [11; 12; 13] 12 = (trace, Found 1) ∧
  ∃ ctx', worker_thread 12 [e] (with_threads ctx [11; 12; 13])
          = (trace, (Worker_running, ctx', [21])) ∧
    worker_stats ctx'
    = <[1%nat := update_stats (initial_stats 1) (1 # 2)]> (worker_stats ctx) ∧
    live_slots (ctx_task_queue ctx') = [22].
Proof.
  intros ctx e trace.
  apply (worker_identity_selects_slot 4096 [11; 12; 13] ctx 1 12
           (initial_stats 1) e 21 [22]).
  - reflexivity.
  - unfold MAX_THREADS. simpl. lia.
  - reflexivity.
  - intros [|j] Hj; [discriminate|lia].
  - reflexivity.
  - split; simpl; first [reflexivity | unfold INT_MAX; lia].
  - reflexivity.
  - discriminate.
  - reflexivity.
Defined.
